(** * A tabbed text editor: search, replace, save, autosave and exit

    Shallow embedding of [src/main.py] (class [TextEditor]).  The Qt widgets
    are represented by the part of their state the handlers read and write:
    a [QTextEdit] is its plain text, its dynamic [file_path] attribute, the
    document's modified flag, the text cursor, the spans painted by the
    search highlight and whether a [SyntaxHighlighter] was attached; the
    [QTabWidget] is the list of (widget, tab text) pairs with a current
    index.  Dialog answers are arguments of the handlers, the file system is
    a finite map from paths to (decoded) file contents, and an exception that
    leaves a handler is an explicit outcome.

    Left out: colours and the rules of the syntax highlighter, the undo
    history (undo and redo are parameters), and the effect a change of
    character format has on the document's modified flag. *)

From Stdlib Require Import Ascii String Sorted.
From stdpp Require Import gmap strings list.

Set Default Proof Using "Type".

(** ** Text *)

(** Python [str] and Qt [QString] values are modelled as lists of 8-bit
    characters; letter case is the ASCII one. *)
Abbreviation str := (list ascii).

Definition lit (s : string) : str := list_ascii_of_string s.
Arguments lit : simpl never.

Definition is_upper (c : ascii) : bool :=
  let n := nat_of_ascii c in (65 <=? n) && (n <=? 90).

Definition lower (c : ascii) : ascii :=
  if is_upper c then ascii_of_nat (nat_of_ascii c + 32) else c.

(** Equality of characters under [re.IGNORECASE] / Qt's case-insensitive
    comparison. *)
Definition ceq (a b : ascii) : bool := Ascii.eqb (lower a) (lower b).

(** [str.startswith] on a suffix of the text ([s[0:len(t)] == t]). *)
Fixpoint startswith (s t : str) {struct t} : bool :=
  match t, s with
  | [], _ => true
  | a :: t', b :: s' => Ascii.eqb a b && startswith s' t'
  | _ :: _, [] => false
  end.

(** The escaped literal [re.escape t], compiled with [re.IGNORECASE], matched
    at the head of [s]: every pattern character is taken literally. *)
Fixpoint match_here (t s : str) : bool :=
  match t, s with
  | [], _ => true
  | a :: t', b :: s' => ceq a b && match_here t' s'
  | _ :: _, [] => false
  end.

(** [s.endswith(t)]. *)
Definition endswith (s t : str) : bool :=
  (length t <=? length s) && startswith (drop (length s - length t) s) t.
Arguments endswith : simpl never.

Definition slash : ascii := "/".

(** [os.path.basename] (POSIX): what follows the last slash. *)
Fixpoint basename_aux (s acc : str) : str :=
  match s with
  | [] => acc
  | c :: s' => if Ascii.eqb c slash then basename_aux s' s' else basename_aux s' acc
  end.

Definition basename (p : str) : str := basename_aux p p.

(** [regex.finditer(s)] for an escaped literal [t]: the scan goes from left to
    right, a match at [pos] yields the span [(pos, pos + len t)] and the scan
    resumes at the end of the match, so the spans do not overlap.  [skip]
    counts the characters of the current match still to be passed.  An empty
    pattern matches (emptily) at every position, the end included. *)
Fixpoint finditer_from (t s : str) (pos skip : nat) : list (nat * nat) :=
  match s with
  | [] => if (skip =? 0) && match_here t [] then [(pos, pos + length t)] else []
  | _ :: s' =>
      match skip with
      | S k => finditer_from t s' (S pos) k
      | 0 => if match_here t s
             then (pos, pos + length t) :: finditer_from t s' (S pos) (length t - 1)
             else finditer_from t s' (S pos) 0
      end
  end.

Definition finditer (t s : str) : list (nat * nat) := finditer_from t s 0 0.

(** [text.replace(old, new)] for a non-empty [old]: leftmost occurrences,
    not overlapping, case-sensitive. *)
Fixpoint replace_from (old new s : str) (skip : nat) : str :=
  match s with
  | [] => []
  | c :: s' =>
      match skip with
      | S k => replace_from old new s' k
      | 0 => if startswith s old
             then new ++ replace_from old new s' (length old - 1)
             else c :: replace_from old new s' 0
      end
  end.

(** [str.replace]; with an empty [old], Python inserts [new] before every
    character and at the end. *)
Definition py_replace (s old new : str) : str :=
  match old with
  | [] => new ++ flat_map (fun c => c :: new) s
  | _ :: _ => replace_from old new s 0
  end.

(** [QTextDocument.find(term, pos)] with the default flags: forward,
    case-insensitive, inside one text block (so a term holding a newline is
    never found); an empty term gives the null cursor.  The result is the
    offset of the match. *)
Fixpoint index_from (t s : str) (pos from : nat) : option nat :=
  match s with
  | [] => None
  | _ :: s' =>
      if (from <=? pos) && match_here t s then Some pos
      else index_from t s' (S pos) from
  end.

Definition newline : ascii := ascii_of_nat 10.

Definition document_find (text t : str) (from : nat) : option nat :=
  match t with
  | [] => None
  | _ :: _ =>
      if existsb (Ascii.eqb newline) t then None else index_from t text 0 from
  end.

(** ** Widgets and application state *)

Record QTextEdit := mkEdit {
  toPlainText : str;                (* the document's text *)
  file_path : option str;           (* dynamic attribute; [None] when unset *)
  isModified : bool;                (* [document().isModified()] *)
  textCursor : nat * nat;           (* anchor and position *)
  search_spans : list (nat * nat);  (* spans painted with the search background *)
  highlighter : bool                (* a [SyntaxHighlighter] is attached *)
}.

(** What [QMessageBox.information] has shown. *)
Inductive notice := TextNotFound.

(** Answers of the exit question. *)
Inductive StandardButton := Save | Discard | Cancel.

Record World := mkWorld {
  tabs : list (QTextEdit * str);    (* widget and tab text, in tab order *)
  currentIndex : nat;
  search_term : str;
  last_cursor_pos : nat;
  disk : gmap str str;              (* readable files and their decoded text *)
  locked : gset str;                (* paths that cannot be opened for writing *)
  messages : list notice
}.

(** A handler either returns or lets an exception escape; in both cases the
    state it leaves behind is recorded. *)
Inductive outcome (A : Type) :=
| Returned (a : A)
| Raised (w : World).
Arguments Returned {A} a.
Arguments Raised {A} w.

Definition bind {A B} (m : outcome A) (k : A -> outcome B) : outcome B :=
  match m with
  | Returned a => k a
  | Raised w => Raised w
  end.

#[global] Instance outcome_bind : MBind outcome := fun A B k m => bind m k.
#[global] Instance outcome_ret : MRet outcome := fun A a => Returned a.

Definition set_tabs (w : World) (t : list (QTextEdit * str)) : World :=
  mkWorld t (currentIndex w) (search_term w) (last_cursor_pos w)
          (disk w) (locked w) (messages w).

Definition set_currentIndex (w : World) (i : nat) : World :=
  mkWorld (tabs w) i (search_term w) (last_cursor_pos w)
          (disk w) (locked w) (messages w).

Definition set_search (w : World) (t : str) (pos : nat) : World :=
  mkWorld (tabs w) (currentIndex w) t pos (disk w) (locked w) (messages w).

Definition set_disk (w : World) (d : gmap str str) : World :=
  mkWorld (tabs w) (currentIndex w) (search_term w) (last_cursor_pos w)
          d (locked w) (messages w).

Definition information (w : World) (n : notice) : World :=
  mkWorld (tabs w) (currentIndex w) (search_term w) (last_cursor_pos w)
          (disk w) (locked w) (messages w ++ [n]).

Definition on_widget (f : QTextEdit -> QTextEdit) (i : nat) (w : World) : World :=
  set_tabs w (alter (fun t => (f t.1, t.2)) i (tabs w)).

Definition setTabText (i : nat) (label : str) (w : World) : World :=
  set_tabs w (alter (fun t => (t.1, label)) i (tabs w)).

Arguments on_widget : simpl never.
Arguments setTabText : simpl never.

Definition setModified (b : bool) (e : QTextEdit) : QTextEdit :=
  mkEdit (toPlainText e) (file_path e) b (textCursor e) (search_spans e) (highlighter e).

Definition set_file_path (p : str) (e : QTextEdit) : QTextEdit :=
  mkEdit (toPlainText e) (Some p) (isModified e) (textCursor e) (search_spans e)
         (highlighter e).

Definition setTextCursor (c : nat * nat) (e : QTextEdit) : QTextEdit :=
  mkEdit (toPlainText e) (file_path e) (isModified e) c (search_spans e) (highlighter e).

Definition set_spans (l : list (nat * nat)) (e : QTextEdit) : QTextEdit :=
  mkEdit (toPlainText e) (file_path e) (isModified e) (textCursor e) l (highlighter e).

(** [QTextEdit.setPlainText]: the whole document is replaced, which drops the
    character formats, puts the cursor at the start and leaves the document
    unmodified. *)
Definition setPlainText (text : str) (e : QTextEdit) : QTextEdit :=
  mkEdit text (file_path e) false (0, 0) [] (highlighter e).

(** The user types in an editor: new text, document modified. *)
Definition typed (text : str) (e : QTextEdit) : QTextEdit :=
  mkEdit text (file_path e) true (textCursor e) (search_spans e) (highlighter e).

(** [QTextCursor.setPosition(pos)] on a document of [len] characters: a
    position out of range is refused and the cursor stays where it was. *)
Definition setPosition (pos len : nat) (c : nat * nat) : nat * nat :=
  if pos <=? len then (pos, pos) else c.

Definition selectionEnd (c : nat * nat) : nat := c.1 `max` c.2.

(** ** The handlers of [TextEditor] *)

Definition current_editor (w : World) : option QTextEdit :=
  fst <$> tabs w !! currentIndex w.

Definition set_tab_modified (w : World) : World :=
  match tabs w !! currentIndex w with
  | Some (editor, current_text) =>
      if isModified editor && negb (endswith current_text (lit "*"))
      then setTabText (currentIndex w) (current_text ++ lit "*") w
      else w
  | None => w
  end.

(** A [textChanged] signal caused by typing [text] into the current editor. *)
Definition text_changed (text : str) (w : World) : World :=
  set_tab_modified (on_widget (typed text) (currentIndex w) w).

Definition highlighted (filename : str) : bool :=
  endswith filename (lit ".py") || endswith filename (lit ".md")
  || endswith filename (lit ".html").

(** [filename] is the answer of [QFileDialog.getOpenFileName], empty when the
    dialog was dismissed.  Reading a path that is not on [disk] raises. *)
Definition open_file (filename : str) (w : World) : outcome World :=
  match filename with
  | [] => Returned w
  | _ :: _ =>
      match disk w !! filename with
      | None => Raised w
      | Some text =>
          let editor := mkEdit text (Some filename) false (0, 0) [] (highlighted filename) in
          let index := length (tabs w) in
          Returned (set_currentIndex
                      (set_tabs w (tabs w ++ [(editor, basename filename)])) index)
      end
  end.

(** [prompt] is the answer of [QFileDialog.getSaveFileName], empty when the
    dialog was dismissed; it is asked for only when the editor has no path. *)
Definition save_file (prompt : str) (w : World) : outcome World :=
  match tabs w !! currentIndex w with
  | Some (editor, _) =>
      let path := match file_path editor with
                  | Some (c :: p) => c :: p
                  | _ => prompt
                  end in
      match path with
      | [] => Returned w
      | _ :: _ =>
          if decide (path ∈ locked w) then Raised w
          else
            let w1 := set_disk w (<[path := toPlainText editor]> (disk w)) in
            let w2 := on_widget (set_file_path path) (currentIndex w) w1 in
            let w3 := setTabText (currentIndex w) (basename path) w2 in
            Returned (on_widget (setModified false) (currentIndex w) w3)
      end
  | None => Returned w
  end.

Definition clear_highlight (i : nat) (w : World) : World :=
  on_widget (set_spans []) i w.

(** [mergeCharFormat] changes the document only where the cursor selects
    something. *)
Definition painted (spans : list (nat * nat)) : list (nat * nat) :=
  filter (fun sp => sp.1 < sp.2) spans.

Definition highlight_all (i : nat) (text : str) (w : World) : World :=
  match tabs w !! i with
  | Some (editor, _) =>
      let found := finditer text (toPlainText editor) in
      let w1 := on_widget (fun e => set_spans (search_spans e ++ painted found) e) i w in
      match found with
      | first_found :: _ => on_widget (setTextCursor first_found) i w1
      | [] => information w1 TextNotFound
      end
  | None => w
  end.

(** [find_str], [ok]: the answer of [QInputDialog.getText]. *)
Definition find_text (find_str : str) (ok : bool) (w : World) : World :=
  match current_editor w with
  | Some _ =>
      if ok && bool_decide (find_str ≠ []) then
        let w1 := set_search w find_str 0 in
        highlight_all (currentIndex w) find_str (clear_highlight (currentIndex w) w1)
      else w
  | None => w
  end.

Definition find_next (w : World) : World :=
  match current_editor w with
  | Some editor =>
      if bool_decide (search_term w ≠ []) then
        let text := toPlainText editor in
        let cursor := setPosition (last_cursor_pos w) (length text) (textCursor editor) in
        let found :=
          match document_find text (search_term w) (selectionEnd cursor) with
          | Some p => Some p
          | None =>
              document_find text (search_term w)
                            (selectionEnd (setPosition 0 (length text) cursor))
          end in
        match found with
        | Some p =>
            let stop := p + length (search_term w) in
            set_search (on_widget (setTextCursor (p, stop)) (currentIndex w) w)
                       (search_term w) stop
        | None => w
        end
      else w
  | None => w
  end.

(** [find_str], [ok1] and [replace_str], [ok2]: the answers of the two
    [QInputDialog.getText] prompts; the second is shown only after the first
    was confirmed with a non-empty term. *)
Definition replace_text (find_str : str) (ok1 : bool) (replace_str : str) (ok2 : bool)
    (w : World) : World :=
  match current_editor w with
  | Some editor =>
      if ok1 && bool_decide (find_str ≠ []) then
        if ok2 then
          let new_text := py_replace (toPlainText editor) find_str replace_str in
          set_tab_modified (on_widget (setPlainText new_text) (currentIndex w) w)
        else w
      else w
  | None => w
  end.

Definition strip_last (s : str) : str := take (length s - 1) s.
Arguments strip_last : simpl never.

Definition auto_save_tab (i : nat) (w : World) : outcome World :=
  match tabs w !! i with
  | Some (editor, label) =>
      match file_path editor with
      | Some path =>
          if isModified editor then
            if decide (path ∈ locked w) then Raised w
            else
              let w1 := set_disk w (<[path := toPlainText editor]> (disk w)) in
              let w2 := on_widget (setModified false) i w1 in
              Returned (if endswith label (lit "*")
                        then setTabText i (strip_last label) w2 else w2)
          else Returned w
      | None => Returned w
      end
  | None => Returned w
  end.

(** [for i in range(lo, lo + n)]. *)
Fixpoint for_range (body : nat -> World -> outcome World) (lo n : nat) (w : World)
    : outcome World :=
  match n with
  | 0 => Returned w
  | S n' => w' ← body lo w; for_range body (S lo) n' w'
  end.

Definition auto_save (w : World) : outcome World :=
  for_range auto_save_tab 0 (length (tabs w)) w.

(** The result tells whether the close event was accepted. *)
Definition closeEvent (reply : StandardButton) (prompt : str) (w : World)
    : outcome (World * bool) :=
  let unsaved := existsb (fun t => isModified t.1) (tabs w) in
  if unsaved then
    match reply with
    | Save => w' ← save_file prompt w; mret (w', true)
    | Discard => Returned (w, true)
    | Cancel => Returned (w, false)
    end
  else Returned (w, true).

(** [QTextEdit.undo] and [QTextEdit.redo] belong to the toolkit; the handlers
    are stated over any behaviour of them. *)
Section UndoRedo.
Variables undo redo : QTextEdit -> QTextEdit.

Definition undo_text (w : World) : World :=
  match current_editor w with
  | Some _ => set_tab_modified (on_widget undo (currentIndex w) w)
  | None => w
  end.

Definition redo_text (w : World) : World :=
  match current_editor w with
  | Some _ => set_tab_modified (on_widget redo (currentIndex w) w)
  | None => w
  end.
End UndoRedo.

(** ** Auxiliary notions used by the statements *)

(** The label a tab gets from the dirty marker rule. *)
Definition marked (l : str) : str :=
  if endswith l (lit "*") then l else l ++ lit "*".

(** The texts typed one after the other, each followed by its [textChanged]. *)
Definition text_changes (edits : list str) (w : World) : World :=
  foldl (λ w text, text_changed text w) w edits.

(** [new_tab]: an empty editor in a tab of its own, made current. *)
Definition new_tab (w : World) : World :=
  let editor := mkEdit [] None false (0, 0) [] false in
  let index := length (tabs w) in
  set_currentIndex (set_tabs w (tabs w ++ [(editor, lit "Новый документ")])) index.

(** The window before its first tab, on a given disk. *)
Definition no_tabs (d : gmap str str) (ro : gset str) : World :=
  mkWorld [] 0 [] 0 d ro [].

(** The path [save_file] writes to: the editor's own, else the answer of the
    save dialog. *)
Definition save_path (e : QTextEdit) (prompt : str) : str :=
  match file_path e with
  | Some (c :: p) => c :: p
  | _ => prompt
  end.

(** The state after a successful save of the current editor to [path]. *)
Definition saved (path : str) (e : QTextEdit) (w : World) : World :=
  on_widget (setModified false) (currentIndex w)
    (setTabText (currentIndex w) (basename path)
       (on_widget (set_file_path path) (currentIndex w)
          (set_disk w (<[path := toPlainText e]> (disk w))))).

(** The path an autosave sweep writes a tab to, if it writes it at all. *)
Definition dirty (t : QTextEdit * str) : option str :=
  match file_path t.1 with
  | Some path => if isModified t.1 then Some path else None
  | None => None
  end.

(** What a sweep makes of one tab, and of the disk on its account. *)
Definition autosaved_tab (t : QTextEdit * str) : QTextEdit * str :=
  match dirty t with
  | Some _ => (setModified false t.1,
               if endswith t.2 (lit "*") then strip_last t.2 else t.2)
  | None => t
  end.

Definition autosaved_disk (d : gmap str str) (t : QTextEdit * str) : gmap str str :=
  match dirty t with
  | Some path => <[path := toPlainText t.1]> d
  | None => d
  end.

(** Everything but the tabs and the disk is the same in both states. *)
Definition same_window (w w' : World) : Prop :=
  currentIndex w' = currentIndex w ∧ search_term w' = search_term w
  ∧ last_cursor_pos w' = last_cursor_pos w ∧ locked w' = locked w
  ∧ messages w' = messages w.




(** "Every occurrence of [old] replaced by [new]", reading the text from left
    to right: where the text starts with [old] the occurrence is replaced and
    reading goes on after it, elsewhere one character is kept. *)
Inductive replaced (old new : str) : str → str → Prop :=
| replaced_nil : replaced old new [] []
| replaced_hit (s r : str) :
    replaced old new s r → replaced old new (old ++ s) (new ++ r)
| replaced_keep (c : ascii) (s r : str) :
    (¬ ∃ rest, c :: s = old ++ rest) →
    replaced old new s r → replaced old new (c :: s) (c :: r).


(** ** The window as a whole *)

(** [TextEditor.__init__]: no search term, resume position 0, one new tab. *)
Definition init (d : gmap str str) (ro : gset str) : World := new_tab (no_tabs d ro).

(** The state a handler leaves behind, whether it returned or raised. *)
Definition after {A} (state : A → World) (r : outcome A) : World :=
  match r with
  | Returned a => state a
  | Raised w => w
  end.

(** What the user, the dialogs and the timer can make the window do. *)
Inductive action :=
| ActNew
| ActOpen (filename : str)
| ActSave (prompt : str)
| ActFind (find_str : str) (ok : bool)
| ActFindNext
| ActReplace (find_str : str) (ok1 : bool) (replace_str : str) (ok2 : bool)
| ActUndo
| ActRedo
| ActType (text : str)
| ActAutoSave
| ActClose (reply : StandardButton) (prompt : str).

Section Dispatch.
Variables undo redo : QTextEdit -> QTextEdit.

(** The slot connected to each action, run to the state it leaves. *)
Definition step (w : World) (a : action) : World :=
  match a with
  | ActNew => new_tab w
  | ActOpen filename => after id (open_file filename w)
  | ActSave prompt => after id (save_file prompt w)
  | ActFind find_str ok => find_text find_str ok w
  | ActFindNext => find_next w
  | ActReplace find_str ok1 replace_str ok2 =>
      replace_text find_str ok1 replace_str ok2 w
  | ActUndo => undo_text undo w
  | ActRedo => redo_text redo w
  | ActType text => text_changed text w
  | ActAutoSave => after id (auto_save w)
  | ActClose reply prompt => after fst (closeEvent reply prompt w)
  end.

Definition run (w : World) (l : list action) : World := foldl step w l.
End Dispatch.

(** Same number of tabs, same current tab. *)
Definition same_shape (w w' : World) : Prop :=
  length (tabs w') = length (tabs w) ∧ currentIndex w' = currentIndex w.

(** One more tab, which is the current one. *)
Definition one_more_tab (w w' : World) : Prop :=
  length (tabs w') = S (length (tabs w)) ∧ currentIndex w' = length (tabs w).

(** Spans in document order that do not overlap. *)
Definition in_order (spans : list (nat * nat)) : Prop :=
  StronglySorted (λ x y : nat * nat, x.2 ≤ y.1) spans.

(** ** The syntax highlighter *)

(** The three character formats of [SyntaxHighlighter.__init__]. *)
Inductive style := keyword_format | string_format | comment_format.

(** The regular expressions of the rules are sequences of these items. *)
Inductive item :=
| Boundary               (* \b *)
| Lit (c : ascii)        (* one literal character *)
| StarNot (c : ascii)    (* [^c]* *)
| StarDot.               (* .* *)

(** [\w] on ASCII text: letters, digits and the underscore. *)
Definition is_word (c : ascii) : bool :=
  let n := nat_of_ascii c in
  ((48 <=? n) && (n <=? 57)) || ((65 <=? n) && (n <=? 90))
  || ((97 <=? n) && (n <=? 122)) || (n =? 95).

(** The same for a neighbour that may be missing (start or end of the text). *)
Definition is_word_at (o : option ascii) : bool :=
  match o with
  | Some c => is_word c
  | None => false
  end.

(** [pattern.match] at the head of [s], [prev] being the character before it:
    the length of the match.  Stars are greedy and give characters back one
    by one when the rest of the pattern does not match. *)
Fixpoint re_match (items : list item) (prev : option ascii) (s : str) : option nat :=
  match items with
  | [] => Some 0
  | Boundary :: rest =>
      if xorb (is_word_at prev) (is_word_at (head s)) then re_match rest prev s
      else None
  | Lit c :: rest =>
      match s with
      | a :: s' => if Ascii.eqb a c then S <$> re_match rest (Some a) s' else None
      | [] => None
      end
  | StarNot c :: rest =>
      (fix star (prev : option ascii) (s : str) {struct s} : option nat :=
         match s with
         | a :: s' =>
             if negb (Ascii.eqb a c) then
               match star (Some a) s' with
               | Some n => Some (S n)
               | None => re_match rest prev s
               end
             else re_match rest prev s
         | [] => re_match rest prev s
         end) prev s
  | StarDot :: rest =>
      (fix star (prev : option ascii) (s : str) {struct s} : option nat :=
         match s with
         | a :: s' =>
             if negb (Ascii.eqb a newline) then
               match star (Some a) s' with
               | Some n => Some (S n)
               | None => re_match rest prev s
               end
             else re_match rest prev s
         | [] => re_match rest prev s
         end) prev s
  end.

(** [pattern.finditer(text)], the scan resuming at the end of each match
    (none of the rules matches the empty string). *)
Fixpoint re_finditer_from (items : list item) (prev : option ascii) (s : str)
    (pos skip : nat) : list (nat * nat) :=
  match s with
  | [] =>
      match skip, re_match items prev [] with
      | 0, Some n => [(pos, pos + n)]
      | _, _ => []
      end
  | c :: s' =>
      match skip with
      | S k => re_finditer_from items (Some c) s' (S pos) k
      | 0 =>
          match re_match items prev s with
          | Some n => (pos, pos + n) :: re_finditer_from items (Some c) s' (S pos) (n - 1)
          | None => re_finditer_from items (Some c) s' (S pos) 0
          end
      end
  end.

Definition re_finditer (items : list item) (text : str) : list (nat * nat) :=
  re_finditer_from items None text 0 0.

Definition dquote : ascii := ascii_of_nat 34.
Definition squote : ascii := ascii_of_nat 39.
Definition hash : ascii := ascii_of_nat 35.

Definition keywords : list str :=
  lit <$> ["def"; "class"; "import"; "from"; "as"; "return"; "if"; "else"; "elif";
           "for"; "while"; "try"; "except"; "with"; "in"; "is"; "not"; "and"; "or"]%string.

(** [r'\b' + word + r'\b'] *)
Definition word_rule (word : str) : list item :=
  Boundary :: (Lit <$> word) ++ [Boundary].

(** [r'#.*'], the last of the rules. *)
Definition comment_rule : list item := [Lit hash; StarDot].

(** [self.highlighting_rules], in the order they are appended. *)
Definition highlighting_rules : list (list item * style) :=
  ((λ word, (word_rule word, keyword_format)) <$> keywords)
  ++ [([Lit dquote; StarNot dquote; Lit dquote], string_format);
      ([Lit squote; StarNot squote; Lit squote], string_format);
      (comment_rule, comment_format)].

(** [QSyntaxHighlighter.setFormat(start, count, fmt)] on the formats of the
    characters of the block: the range is overwritten, as far as it lies in
    the block. *)
Definition setFormat (start count : nat) (fmt : style) (formats : list (option style))
    : list (option style) :=
  imap (λ j old, if bool_decide (start ≤ j < start + count) then Some fmt else old)
       formats.

Definition apply_rule (text : str) (formats : list (option style))
    (rule : list item * style) : list (option style) :=
  foldl (λ fs m, setFormat m.1 (m.2 - m.1) rule.2 fs) formats (re_finditer rule.1 text).

(** [highlightBlock(text)]: the format of every character of the block. *)
Definition highlightBlock (rules : list (list item * style)) (text : str)
    : list (option style) :=
  foldl (apply_rule text) (replicate (length text) None) rules.

(** The character before position [a] of the text, if any. *)
Definition char_before (text : str) (a : nat) : option ascii :=
  match a with
  | 0 => None
  | S k => text !! k
  end.


(** * Properties *)

(** ** Evaluation on small inputs *)

Example finditer_hello :
  finditer (lit "world") (lit "hello World") = [(6, 11)].
Proof. reflexivity. Qed.

Example finditer_overlap : finditer (lit "aa") (lit "aaaa") = [(0, 2); (2, 4)].
Proof. reflexivity. Qed.

Example replace_ex : py_replace (lit "aXbXc") (lit "X") (lit "--") = lit "a--b--c".
Proof. reflexivity. Qed.

Example basename_ex : basename (lit "/tmp/x.txt") = lit "x.txt".
Proof. reflexivity. Qed.

Example find_ex : document_find (lit "ab AB") (lit "ab") 2 = Some 3.
Proof. reflexivity. Qed.

(** ** Prefixes and suffixes *)

Lemma eqb_iff (a b : ascii) : Ascii.eqb a b = true ↔ a = b.
Proof. apply Ascii.eqb_eq. Qed.

Lemma startswith_spec (s t : str) : startswith s t = true ↔ ∃ r, s = t ++ r.
Proof.
  revert s. induction t as [|a t IH]; intros s; simpl.
  - split; [by exists s | done].
  - destruct s as [|b s].
    + split; [done | intros [r Hr]; discriminate].
    + rewrite andb_true_iff, eqb_iff, IH. split.
      * intros [-> [r ->]]. by exists r.
      * intros [r Hr]. injection Hr as -> ->. eauto.
Qed.

Lemma endswith_spec (s t : str) : endswith s t = true ↔ ∃ p, s = p ++ t.
Proof.
  unfold endswith. rewrite andb_true_iff, Nat.leb_le, startswith_spec. split.
  - intros [Hlen [r Hr]].
    assert (r = []) as ->.
    { apply (f_equal length) in Hr. rewrite length_drop, length_app in Hr.
      destruct r; [done | simpl in Hr; lia]. }
    rewrite app_nil_r in Hr. exists (take (length s - length t) s).
    pose proof (take_drop (length s - length t) s) as E. by rewrite Hr in E.
  - intros [p ->]. rewrite length_app. split; [lia |].
    exists []. rewrite app_nil_r.
    replace (length p + length t - length t) with (length p) by lia.
    by rewrite drop_app_length.
Qed.

Lemma endswith_snoc (l : str) (c : ascii) : endswith (l ++ [c]) [c] = true.
Proof. apply endswith_spec. by exists l. Qed.

Lemma endswith_two_stars (l : str) (c : ascii) :
  endswith l [c] = false → endswith (l ++ [c]) [c; c] = false.
Proof.
  intros Hl. apply not_true_is_false. intros [p Hp]%endswith_spec.
  change [c; c] with ([c] ++ [c]) in Hp. rewrite app_assoc in Hp.
  apply app_inj_tail in Hp as [-> _].
  rewrite endswith_snoc in Hl. discriminate.
Qed.

(** ** Reading the tabs after an update *)

Lemma current_editor_no_tabs (w : World) : tabs w = [] → current_editor w = None.
Proof. unfold current_editor. by intros ->. Qed.

Lemma lookup_on_widget f i j w :
  tabs (on_widget f i w) !! j =
  if decide (i = j) then (λ t, (f t.1, t.2)) <$> tabs w !! j else tabs w !! j.
Proof.
  unfold on_widget; simpl. rewrite list_lookup_alter. by case_decide; subst.
Qed.

Lemma lookup_setTabText l i j w :
  tabs (setTabText i l w) !! j =
  if decide (i = j) then (λ t, (t.1, l)) <$> tabs w !! j else tabs w !! j.
Proof.
  unfold setTabText; simpl. rewrite list_lookup_alter. by case_decide; subst.
Qed.

Lemma marked_idemp (l : str) : marked (marked l) = marked l.
Proof.
  unfold marked. destruct (endswith l (lit "*")) eqn:E; rewrite ?E; [done |].
  change (lit "*") with ["*"%char]. by rewrite endswith_snoc.
Qed.

Lemma text_changed_current (text : str) (w : World) e l :
  tabs w !! currentIndex w = Some (e, l) →
  currentIndex (text_changed text w) = currentIndex w ∧
  tabs (text_changed text w) !! currentIndex w = Some (typed text e, marked l).
Proof.
  intros H. unfold text_changed, set_tab_modified.
  change (currentIndex (on_widget (typed text) (currentIndex w) w))
    with (currentIndex w).
  rewrite lookup_on_widget, decide_True, H by done. cbn.
  unfold marked. destruct (endswith l (lit "*")) eqn:E; cbn.
  - split; [done |]. by rewrite lookup_on_widget, decide_True, H.
  - split; [done |].
    by rewrite lookup_setTabText, decide_True, lookup_on_widget, decide_True, H.
Qed.


(** ** The dirty marker *)

Lemma text_changes_current (edits : list str) : ∀ (w : World) e l,
  tabs w !! currentIndex w = Some (e, l) →
  ∃ e', tabs (text_changes edits w) !! currentIndex w
        = Some (e', if edits is [] then l else marked l)
        ∧ (edits ≠ [] → isModified e' = true).
Proof.
  induction edits as [|text edits IH]; intros w e l H.
  - exists e. by split.
  - destruct (text_changed_current text w e l H) as [Hi Ht].
    change (text_changes (text :: edits) w)
      with (text_changes edits (text_changed text w)).
    destruct edits as [|text' edits].
    + exists (typed text e). by split.
    + rewrite <- Hi in Ht. destruct (IH _ _ _ Ht) as (e' & He' & Hm).
      rewrite Hi in He'. exists e'. rewrite marked_idemp in He'.
      split; [done |]. intros _. by apply Hm.
Qed.

(** C9: after any non-empty sequence of text changes in the current editor,
    the document is modified and the tab label is the initial label with the
    marker appended exactly once: a label without a marker gets one star
    and never two, a label that already ends with the star is left as it
    is. *)
Theorem dirty_marker_appended_once (w : World) (e : QTextEdit) (l : str)
    (edits : list str) :
  tabs w !! currentIndex w = Some (e, l) →
  edits ≠ [] →
  ∃ e', tabs (text_changes edits w) !! currentIndex w = Some (e', marked l)
        ∧ isModified e' = true
        ∧ endswith (marked l) (lit "*") = true
        ∧ (endswith l (lit "*") = true → marked l = l)
        ∧ (endswith l (lit "*") = false →
             marked l = l ++ lit "*" ∧ endswith (marked l) (lit "**") = false).
Proof.
  intros H Hne. destruct (text_changes_current edits w e l H) as (e' & He' & Hm).
  exists e'. destruct edits as [|text edits]; [done |].
  split; [done |]. split; [by apply Hm |]. unfold marked.
  destruct (endswith l (lit "*")) eqn:E.
  - by repeat split.
  - split; [apply (endswith_snoc l "*"%char) |]. split; [done |].
    intros _. split; [done |]. by apply (endswith_two_stars l "*"%char).
Qed.

Lemma dirty_marker_appended_once_witness :
  ∃ e', tabs (text_changes [lit "a"; lit "ab"; lit "abc"] (new_tab (no_tabs ∅ ∅)))
          !! 0 = Some (e', lit "Новый документ*").
Proof.
  destruct (dirty_marker_appended_once (new_tab (no_tabs ∅ ∅))
              (mkEdit [] None false (0, 0) [] false) (lit "Новый документ")
              [lit "a"; lit "ab"; lit "abc"]) as (e' & He' & _ & _ & _ & Hl);
    [reflexivity | discriminate |].
  exists e'. destruct Hl as [-> _]; [reflexivity | exact He'].
Defined.

(** ** Handlers without a current editor *)

Lemma current_editor_None (w : World) :
  current_editor w = None ↔ tabs w !! currentIndex w = None.
Proof. unfold current_editor. by rewrite fmap_None. Qed.

(** C10: without a current editor, save, find, find next, replace, undo and
    redo return normally and leave the whole state as it was, whatever the
    dialogs would have answered. *)
Theorem no_editor_actions_are_noops (undo redo : QTextEdit → QTextEdit) (w : World)
    (prompt find_str replace_str : str) (ok1 ok2 : bool) :
  current_editor w = None →
  save_file prompt w = Returned w
  ∧ find_text find_str ok1 w = w
  ∧ find_next w = w
  ∧ replace_text find_str ok1 replace_str ok2 w = w
  ∧ undo_text undo w = w
  ∧ redo_text redo w = w.
Proof.
  intros H. unfold save_file, find_text, find_next, replace_text, undo_text, redo_text.
  rewrite H. apply current_editor_None in H. by rewrite H.
Qed.

Lemma no_editor_actions_are_noops_witness :
  let w := no_tabs ∅ ∅ in
  save_file (lit "/tmp/x.txt") w = Returned w
  ∧ find_text (lit "a") true w = w
  ∧ find_next w = w
  ∧ replace_text (lit "a") true (lit "b") true w = w
  ∧ undo_text id w = w
  ∧ redo_text id w = w.
Proof.
  apply (no_editor_actions_are_noops id id (no_tabs ∅ ∅)). reflexivity.
Defined.

(** ** Saving *)

Lemma save_file_cases (w : World) (e : QTextEdit) (l prompt : str) :
  tabs w !! currentIndex w = Some (e, l) →
  save_file prompt w =
    match save_path e prompt with
    | [] => Returned w
    | path => if decide (path ∈ locked w) then Raised w else Returned (saved path e w)
    end.
Proof.
  intros H. unfold save_file, save_path, saved. rewrite H.
  destruct (file_path e) as [[|c p]|]; try done; by destruct prompt.
Qed.

Lemma saved_current (path : str) (w : World) (e : QTextEdit) (l : str) :
  tabs w !! currentIndex w = Some (e, l) →
  tabs (saved path e w) !! currentIndex w
  = Some (mkEdit (toPlainText e) (Some path) false (textCursor e) (search_spans e)
                 (highlighter e), basename path).
Proof.
  intros H. unfold saved.
  rewrite lookup_on_widget, decide_True, lookup_setTabText, decide_True,
    lookup_on_widget, decide_True by done.
  cbn. by rewrite H.
Qed.

Lemma saved_others (path : str) (w : World) (e : QTextEdit) (j : nat) :
  j ≠ currentIndex w → tabs (saved path e w) !! j = tabs w !! j.
Proof.
  intros Hj. unfold saved.
  by rewrite lookup_on_widget, decide_False, lookup_setTabText, decide_False,
    lookup_on_widget, decide_False.
Qed.

Lemma disk_saved (path : str) (e : QTextEdit) (w : World) :
  disk (saved path e w) = <[path := toPlainText e]> (disk w).
Proof. reflexivity. Qed.

(** C8: saving the current editor.  With no path of its own the editor is
    saved to the answer of the save dialog, and a dismissed dialog leaves the
    state as it was.  When the file can be written, the file at the path
    holds the text of the buffer, the editor's path is that path, the
    document is unmodified and the tab text is the base name of the path. *)
Theorem save_file_prompts_and_saves (w : World) (e : QTextEdit) (l prompt : str) :
  tabs w !! currentIndex w = Some (e, l) →
  (file_path e = None → save_path e prompt = prompt)
  ∧ (save_path e prompt = [] → save_file prompt w = Returned w)
  ∧ (save_path e prompt ≠ [] → save_path e prompt ∉ locked w →
     ∃ w', save_file prompt w = Returned w'
       ∧ disk w' !! save_path e prompt = Some (toPlainText e)
       ∧ tabs w' !! currentIndex w
         = Some (mkEdit (toPlainText e) (Some (save_path e prompt)) false
                        (textCursor e) (search_spans e) (highlighter e),
                 basename (save_path e prompt))
       ∧ currentIndex w' = currentIndex w).
Proof.
  intros H. split; [| split].
  - unfold save_path. by intros ->.
  - intros Hp. by rewrite (save_file_cases w e l prompt H), Hp.
  - intros Hp Hl. exists (saved (save_path e prompt) e w).
    rewrite (save_file_cases w e l prompt H).
    destruct (save_path e prompt) as [|c p] eqn:E; [done |].
    rewrite decide_False by done. split; [done |]. split; [| split].
    + by rewrite disk_saved, lookup_insert_eq.
    + apply (saved_current _ w e l H).
    + done.
Qed.

Lemma save_file_prompts_and_saves_witness :
  ∃ w', save_file (lit "/tmp/x.txt") (text_changed (lit "hello") (new_tab (no_tabs ∅ ∅)))
        = Returned w'
      ∧ disk w' !! lit "/tmp/x.txt" = Some (lit "hello")
      ∧ tabs w' !! 0
        = Some (mkEdit (lit "hello") (Some (lit "/tmp/x.txt")) false (0, 0) [] false,
                lit "x.txt").
Proof.
  destruct (save_file_prompts_and_saves
              (text_changed (lit "hello") (new_tab (no_tabs ∅ ∅)))
              (mkEdit (lit "hello") None true (0, 0) [] false)
              (lit "Новый документ*") (lit "/tmp/x.txt") eq_refl)
    as (_ & _ & Hs).
  destruct Hs as (w' & Hw & Hd & Ht & _); [discriminate | exact (not_elem_of_empty (C:=gset str) _) |].
  exists w'. split; [exact Hw |]. split; [exact Hd | exact Ht].
Defined.

(** ** Opening a file *)

Lemma basename_aux_spec (s : str) : ∀ acc : str,
  (slash ∉ s → basename_aux s acc = acc)
  ∧ (slash ∈ s →
     (slash ∉ basename_aux s acc) ∧ ∃ d, s = d ++ (slash :: basename_aux s acc)).
Proof.
  induction s as [|c s IH]; intros acc; simpl.
  - split; [done |]. by intros ?%elem_of_nil.
  - destruct (Ascii.eqb c slash) eqn:E.
    + apply eqb_iff in E as ->. split; [intros []; left |].
      intros _. destruct (decide (slash ∈ s)) as [Hin|Hnin].
      * destruct (proj2 (IH s) Hin) as [Hno [d Hd]]. split; [done |].
        exists (slash :: d). simpl. by f_equal.
      * rewrite (proj1 (IH s) Hnin). split; [done |]. by exists [].
    + assert (c ≠ slash) as Hc by (intros ->; by rewrite Ascii.eqb_refl in E).
      split.
      * intros Hnin. apply (IH acc). intros Hin. apply Hnin. by right.
      * intros [? | Hin]%elem_of_cons; [done |].
        destruct (proj2 (IH acc) Hin) as [Hno [d Hd]]. split; [done |].
        exists (c :: d). simpl. by f_equal.
Qed.





(** ** Leaving the editor *)

Lemma unsaved_exists (w : World) (j : nat) (e : QTextEdit) (l : str) :
  tabs w !! j = Some (e, l) → isModified e = true →
  existsb (λ t, isModified t.1) (tabs w) = true.
Proof.
  intros H Hm. apply existsb_exists. exists (e, l). split; [| done].
  apply list_elem_of_In. by eapply list_elem_of_lookup_2.
Qed.

(** C7: with two modified sessions open and an active one among the tabs,
    "Discard" accepts the close event and "Cancel" ignores it, both without
    touching the state.  "Save" saves the active editor alone and accepts:
    every other tab keeps its editor (text, path, modified flag) and its tab
    text, so some modified session is still modified; no file other than the
    active editor's target is written, the target holds the active editor's
    text, and a dismissed save dialog writes nothing at all. *)
Theorem exit_save_writes_active_only (w : World) (e : QTextEdit) (l prompt : str)
    (j1 j2 : nat) (e1 e2 : QTextEdit) (l1 l2 : str) :
  tabs w !! j1 = Some (e1, l1) → isModified e1 = true →
  tabs w !! j2 = Some (e2, l2) → isModified e2 = true →
  j1 ≠ j2 →
  tabs w !! currentIndex w = Some (e, l) →
  closeEvent Discard prompt w = Returned (w, true)
  ∧ closeEvent Cancel prompt w = Returned (w, false)
  ∧ (save_path e prompt ∉ locked w →
     ∃ w', closeEvent Save prompt w = Returned (w', true)
       ∧ (∀ j, j ≠ currentIndex w → tabs w' !! j = tabs w !! j)
       ∧ (∀ p, p ≠ save_path e prompt → disk w' !! p = disk w !! p)
       ∧ (save_path e prompt ≠ [] →
          disk w' !! save_path e prompt = Some (toPlainText e))
       ∧ (save_path e prompt = [] → w' = w)
       ∧ ∃ j e' l', j ≠ currentIndex w ∧ tabs w' !! j = Some (e', l')
                    ∧ isModified e' = true).
Proof.
  intros H1 M1 H2 M2 Hne Hc. unfold closeEvent.
  rewrite (unsaved_exists w j1 e1 l1 H1 M1).
  split; [done |]. split; [done |]. intros Hl.
  rewrite (save_file_cases w e l prompt Hc).
  assert (∀ w', (∀ j, j ≠ currentIndex w → tabs w' !! j = tabs w !! j) →
            ∃ j e' l', j ≠ currentIndex w ∧ tabs w' !! j = Some (e', l')
                       ∧ isModified e' = true) as Hother.
  { intros w' Hf. destruct (decide (j1 = currentIndex w)) as [E|E].
    - exists j2, e2, l2. rewrite Hf by congruence. split; [congruence | done].
    - exists j1, e1, l1. by rewrite Hf. }
  destruct (save_path e prompt) as [|c p] eqn:E.
  - exists w. split; [done |]. split; [done |]. split; [done |].
    split; [done |]. split; [done |]. by apply Hother.
  - rewrite decide_False by done. exists (saved (c :: p) e w).
    assert (∀ j, j ≠ currentIndex w → tabs (saved (c :: p) e w) !! j = tabs w !! j)
      as Hf by (intros j Hj; by apply saved_others).
    split; [done |]. split; [done |]. split.
    { intros q Hq. by rewrite disk_saved, lookup_insert_ne. }
    split.
    { intros _. by rewrite disk_saved, lookup_insert_eq. }
    split; [done |]. by apply Hother.
Qed.

Lemma exit_save_writes_active_only_witness :
  let a := mkEdit (lit "one") (Some (lit "/a.txt")) true (0, 0) [] false in
  let b := mkEdit (lit "two") (Some (lit "/b.txt")) true (0, 0) [] false in
  let w := mkWorld [(a, lit "a.txt*"); (b, lit "b.txt*")] 1 [] 0 ∅ ∅ [] in
  ∃ w', closeEvent Save [] w = Returned (w', true)
    ∧ tabs w' !! 0 = Some (a, lit "a.txt*")
    ∧ disk w' !! lit "/a.txt" = None
    ∧ disk w' !! lit "/b.txt" = Some (lit "two").
Proof.
  intros a b w.
  destruct (exit_save_writes_active_only w b (lit "b.txt*") [] 0 1
              a b (lit "a.txt*") (lit "b.txt*")
              eq_refl eq_refl eq_refl eq_refl) as (_ & _ & Hs);
    [discriminate | reflexivity |].
  destruct Hs as (w' & Hw & Ht & Hd & Hb & _);
    [exact (not_elem_of_empty (C:=gset str) _) |].
  exists w'. split; [exact Hw |]. split; [apply (Ht 0); discriminate |].
  split; [rewrite (Hd (lit "/a.txt")); [reflexivity | discriminate] |].
  apply Hb. discriminate.
Defined.

(** ** The autosave sweep *)

Lemma strip_last_snoc (l : str) (c : ascii) : strip_last (l ++ [c]) = l.
Proof.
  unfold strip_last. rewrite length_app. simpl.
  replace (length l + 1 - 1) with (length l) by lia. by rewrite take_app_length.
Qed.

Lemma auto_save_tab_step (i : nat) (w : World) (t : QTextEdit * str) :
  tabs w !! i = Some t →
  (∀ path, dirty t = Some path → path ∉ locked w) →
  ∃ w1, auto_save_tab i w = Returned w1
    ∧ tabs w1 = <[i := autosaved_tab t]> (tabs w)
    ∧ disk w1 = autosaved_disk (disk w) t
    ∧ same_window w w1.
Proof.
  intros H Hl. unfold auto_save_tab. rewrite H. destruct t as [e l].
  unfold autosaved_tab, autosaved_disk, dirty in *. cbn in *.
  destruct (file_path e) as [path|]; [destruct (isModified e) |].
  - rewrite decide_False by (by apply Hl).
    destruct (endswith l (lit "*")); eexists; (split; [done |]);
      (split; [| by split]); apply list_eq; intros j;
      rewrite ?lookup_setTabText, lookup_on_widget; cbn;
      (destruct (decide (i = j)) as [<-|Hj];
       [rewrite H; cbn; rewrite list_lookup_insert_eq; [done |];
        by eapply lookup_lt_Some
       | by rewrite list_lookup_insert_ne]).
  - exists w. by rewrite list_insert_id.
  - exists w. by rewrite list_insert_id.
Qed.

Lemma same_window_trans (w1 w2 w3 : World) :
  same_window w1 w2 → same_window w2 w3 → same_window w1 w3.
Proof. unfold same_window. intuition congruence. Qed.

Lemma for_range_auto_save (n : nat) : ∀ (lo : nat) (w : World),
  lo + n ≤ length (tabs w) →
  (∀ j t path, lo ≤ j < lo + n → tabs w !! j = Some t → dirty t = Some path →
               path ∉ locked w) →
  ∃ w', for_range auto_save_tab lo n w = Returned w'
    ∧ (∀ j, tabs w' !! j =
            if decide (lo ≤ j < lo + n) then autosaved_tab <$> tabs w !! j
            else tabs w !! j)
    ∧ disk w' = foldl autosaved_disk (disk w) (take n (drop lo (tabs w)))
    ∧ same_window w w'.
Proof.
  induction n as [|n IH]; intros lo w Hlen Hlock.
  - exists w. split; [done |]. split; [| by split].
    intros j. case_decide; [lia | done].
  - destruct (lookup_lt_is_Some_2 (tabs w) lo) as [t Ht]; [lia |].
    destruct (auto_save_tab_step lo w t Ht) as (w1 & Hstep & Htabs & Hdisk & Hsame).
    { intros path. apply (Hlock lo); [lia | done]. }
    destruct (IH (S lo) w1) as (w' & Hrun & Hlook & Hd & Hs).
    { rewrite Htabs, length_insert. lia. }
    { intros j t' path Hj Hj'. rewrite Htabs, list_lookup_insert_ne in Hj' by lia.
      destruct Hsame as (_ & _ & _ & -> & _). apply (Hlock j t'); [lia | done]. }
    exists w'. split; [| split; [| split]].
    + simpl. rewrite Hstep. exact Hrun.
    + intros j. rewrite Hlook, Htabs.
      destruct (decide (j = lo)) as [->|Hj].
      * rewrite decide_False, decide_True by lia.
        rewrite list_lookup_insert_eq by (by eapply lookup_lt_Some).
        by rewrite Ht.
      * rewrite list_lookup_insert_ne by done.
        repeat case_decide; try done; lia.
    + rewrite Hd, Hdisk, Htabs, drop_insert_lt by lia.
      by rewrite (drop_S _ _ _ Ht).
    + by eapply same_window_trans.
Qed.


Lemma foldl_autosaved_disk_keep (post : list (QTextEdit * str)) (path : str) :
  ∀ d : gmap str str,
  (∀ t, t ∈ post → dirty t ≠ Some path) →
  foldl autosaved_disk d post !! path = d !! path.
Proof.
  induction post as [|t post IH]; intros d Hno; [done |]. simpl.
  rewrite IH by (intros t' Ht'; apply Hno; by right).
  unfold autosaved_disk. destruct (dirty t) as [p|] eqn:E; [| done].
  rewrite lookup_insert_ne; [done |]. intros ->. eapply Hno; [by left | done].
Qed.

Lemma foldl_autosaved_disk_last (pre post : list (QTextEdit * str))
    (t : QTextEdit * str) (path : str) (d : gmap str str) :
  dirty t = Some path →
  (∀ t', t' ∈ post → dirty t' ≠ Some path) →
  foldl autosaved_disk d (pre ++ t :: post) !! path = Some (toPlainText t.1).
Proof.
  intros Ht Hno. rewrite foldl_app. simpl.
  rewrite foldl_autosaved_disk_keep by done.
  unfold autosaved_disk at 1. rewrite Ht. apply lookup_insert_eq.
Qed.



(** ** Input and output failures *)




(** ** Scanning for matches *)


Lemma match_here_take (t : str) : ∀ s : str,
  match_here t s = true ↔ lower <$> take (length t) s = lower <$> t.
Proof.
  induction t as [|a t IH]; intros s; [done |].
  destruct s as [|b s]; [done |].
  cbn [match_here length take]. rewrite !fmap_cons, andb_true_iff.
  unfold ceq. rewrite eqb_iff, IH. split.
  - by intros [-> ->].
  - by intros [= -> ->].
Qed.


Lemma drop_cons_sub (c : ascii) (s : str) (pos p : nat) :
  pos < p → drop (p - pos) (c :: s) = drop (p - S pos) s.
Proof. intros H. by replace (p - pos) with (S (p - S pos)) by lia. Qed.


Section Finditer.
Variable t : str.

Lemma finditer_from_sound (s : str) : ∀ pos skip a b,
  (a, b) ∈ finditer_from t s pos skip →
  b = a + length t ∧ pos + skip ≤ a ∧ match_here t (drop (a - pos) s) = true.
Proof.
  induction s as [|c s IH]; intros pos skip a b; simpl.
  - destruct (skip =? 0) eqn:Es; simpl; [| by intros ?%elem_of_nil].
    apply Nat.eqb_eq in Es as ->.
    destruct (match_here t []) eqn:E; [| by intros ?%elem_of_nil].
    intros Hin%list_elem_of_singleton. injection Hin as -> ->.
    rewrite Nat.sub_diag. simpl. split; [done |]. split; [lia | done].
  - destruct skip as [|k].
    + destruct (match_here t (c :: s)) eqn:E.
      * intros [Hin|Hin]%elem_of_cons.
        -- injection Hin as -> ->. rewrite Nat.sub_diag. simpl.
           split; [done |]. split; [lia | done].
        -- destruct (IH _ _ _ _ Hin) as (-> & Hle & Hm).
           split; [done |]. split; [lia |]. by rewrite drop_cons_sub by lia.
      * intros Hin. destruct (IH _ _ _ _ Hin) as (-> & Hle & Hm).
        split; [done |]. split; [lia |]. by rewrite drop_cons_sub by lia.
    + intros Hin. destruct (IH _ _ _ _ Hin) as (-> & Hle & Hm).
      split; [done |]. split; [lia |]. by rewrite drop_cons_sub by lia.
Qed.

Hypothesis t_nonempty : t ≠ [].

Lemma match_here_nil : match_here t [] = false.
Proof using t_nonempty. by destruct t. Qed.




End Finditer.

(** ** Highlighting the matches *)






(** ** Replacing *)

Lemma replace_from_skip (old new : str) (s : str) : ∀ skip,
  replace_from old new s skip = replace_from old new (drop skip s) 0.
Proof.
  induction s as [|c s IH]; intros [|k]; try done. simpl. by rewrite IH.
Qed.

Lemma py_replace_hit (old new rest : str) :
  old ≠ [] →
  py_replace (old ++ rest) old new = new ++ py_replace rest old new.
Proof.
  intros Hne. destruct old as [|a o]; [done |].
  change (py_replace ((a :: o) ++ rest) (a :: o) new)
    with (replace_from (a :: o) new (a :: (o ++ rest)) 0).
  cbn [replace_from].
  assert (startswith (a :: o ++ rest) (a :: o) = true) as ->.
  { apply startswith_spec. by exists rest. }
  rewrite replace_from_skip.
  replace (length (a :: o) - 1) with (length o) by (simpl; lia).
  by rewrite drop_app_length.
Qed.

Lemma py_replace_keep (old new : str) (c : ascii) (s : str) :
  old ≠ [] →
  (¬ ∃ rest, c :: s = old ++ rest) →
  py_replace (c :: s) old new = c :: py_replace s old new.
Proof.
  intros Hne Hno. destruct old as [|a o]; [done |].
  unfold py_replace. cbn [replace_from].
  destruct (startswith (c :: s) (a :: o)) eqn:E; [| done].
  apply startswith_spec in E. done.
Qed.

Lemma py_replace_replaced (old new : str) :
  old ≠ [] → ∀ s, replaced old new s (py_replace s old new).
Proof.
  intros Hne s. remember (length s) as n eqn:Hn.
  revert s Hn. induction n as [n IH] using lt_wf_ind. intros s ->.
  destruct s as [|c s].
  - destruct old; [done |]. constructor.
  - destruct (startswith (c :: s) old) eqn:E.
    + apply startswith_spec in E as [rest E]. rewrite E.
      rewrite py_replace_hit by done. constructor.
      apply (IH (length rest)); [| done].
      apply (f_equal length) in E. rewrite length_app in E.
      destruct old; [done |]. simpl in *. lia.
    + assert (¬ ∃ rest, c :: s = old ++ rest) as Hno.
      { intros Hex%startswith_spec. by rewrite Hex in E. }
      rewrite py_replace_keep by done. constructor; [done |].
      apply (IH (length s)); [simpl; lia | done].
Qed.

Lemma replaced_same (t s r : str) : replaced t t s r → r = s.
Proof. induction 1; by subst. Qed.

Lemma replaced_absent (old new s r : str) :
  replaced old new s r →
  (∀ pre post, s ≠ pre ++ old ++ post) → r = s.
Proof.
  induction 1 as [|s r Hr IH|c s r Hno Hr IH]; intros Habs; [done | |].
  - exfalso. by apply (Habs [] s).
  - f_equal. apply IH. intros pre post ->. by apply (Habs (c :: pre) post).
Qed.

Lemma replace_text_confirmed (w : World) (e : QTextEdit) (l find_str replace_str : str) :
  tabs w !! currentIndex w = Some (e, l) →
  find_str ≠ [] →
  replace_text find_str true replace_str true w
  = on_widget (setPlainText (py_replace (toPlainText e) find_str replace_str))
              (currentIndex w) w.
Proof.
  intros H Hne. unfold replace_text, current_editor. rewrite H. cbn.
  rewrite bool_decide_eq_true_2 by done.
  unfold set_tab_modified.
  change (currentIndex (on_widget ?f ?i w)) with (currentIndex w).
  by rewrite lookup_on_widget, decide_True, H.
Qed.

(** C2: with a non-empty find term and both prompts confirmed, the text of
    the current editor becomes its old text with every occurrence of the
    find term replaced (Python's [str.replace]: left to right, occurrences
    not overlapping); an empty replacement is allowed and deletes them;
    replacing a term by itself, or a term the text does not hold, leaves the
    text as it was; other tabs and the disk are untouched.  An empty find
    term or a dismissed prompt leaves the whole state as it was. *)
Theorem replace_text_replaces_all (w : World) (e : QTextEdit) (l find_str replace_str : str) :
  tabs w !! currentIndex w = Some (e, l) →
  find_str ≠ [] →
  let s := toPlainText e in
  let w' := replace_text find_str true replace_str true w in
  (∃ e' l', tabs w' !! currentIndex w = Some (e', l')
     ∧ toPlainText e' = py_replace s find_str replace_str
     ∧ replaced find_str replace_str s (toPlainText e')
     ∧ (replace_str = find_str → toPlainText e' = s)
     ∧ ((∀ pre post, s ≠ pre ++ find_str ++ post) → toPlainText e' = s))
  ∧ (∀ j, j ≠ currentIndex w → tabs w' !! j = tabs w !! j)
  ∧ disk w' = disk w
  ∧ (∀ ok1 r ok2, replace_text [] ok1 r ok2 w = w)
  ∧ (∀ r ok2, replace_text find_str false r ok2 w = w)
  ∧ (∀ r, replace_text find_str true r false w = w).
Proof.
  intros H Hne s w'. subst w'. rewrite (replace_text_confirmed w e l) by done.
  fold s. pose proof (py_replace_replaced find_str replace_str Hne s) as Hrep.
  split; [| split; [| split; [| split; [| split]]]].
  - eexists _, _. split.
    { rewrite lookup_on_widget, decide_True, H by done. reflexivity. }
    cbn. split; [done |]. split; [done |]. split.
    + intros ->. by apply (replaced_same find_str).
    + intros Habs. by apply (replaced_absent find_str replace_str).
  - intros j Hj. by rewrite lookup_on_widget, decide_False.
  - done.
  - intros ok1 r ok2. unfold replace_text. destruct (current_editor w); [| done].
    by rewrite andb_false_r.
  - intros r ok2. unfold replace_text. by destruct (current_editor w).
  - intros r. unfold replace_text. destruct (current_editor w); [| done].
    by destruct (true && bool_decide (find_str ≠ [])).
Qed.

Lemma replace_text_replaces_all_witness :
  let e := mkEdit (lit "one two one") None true (3, 3) [(0, 3)] false in
  let w := mkWorld [(e, lit "t*")] 0 [] 0 ∅ ∅ [] in
  (∃ e' l', tabs (replace_text (lit "one") true [] true w) !! 0 = Some (e', l')
     ∧ toPlainText e' = lit " two ")
  ∧ replace_text [] true (lit "x") true w = w.
Proof.
  intros e w.
  destruct (replace_text_replaces_all w e (lit "t*") (lit "one") [] eq_refl)
    as ((e' & l' & He' & Ht & _) & _ & _ & Hempty & _); [discriminate |].
  split; [| apply Hempty]. exists e', l'. split; [exact He' | exact Ht].
Defined.

(** ** Finding the next occurrence *)














(** * Further properties of the handlers *)

(** ** There is always a current editor *)

Lemma same_shape_refl (w : World) : same_shape w w.
Proof. by split. Qed.

Lemma same_shape_trans (w1 w2 w3 : World) :
  same_shape w1 w2 → same_shape w2 w3 → same_shape w1 w3.
Proof. unfold same_shape. intuition congruence. Qed.

Lemma on_widget_shape f i w : same_shape w (on_widget f i w).
Proof. split; [| done]. unfold on_widget; cbn. apply length_alter. Qed.

Lemma setTabText_shape l i w : same_shape w (setTabText i l w).
Proof. split; [| done]. unfold setTabText; cbn. apply length_alter. Qed.

Lemma set_tab_modified_shape (w : World) : same_shape w (set_tab_modified w).
Proof.
  unfold set_tab_modified. destruct (tabs w !! currentIndex w) as [[e l]|];
    [| apply same_shape_refl].
  destruct (isModified e && negb (endswith l (lit "*")));
    [apply setTabText_shape | apply same_shape_refl].
Qed.

Lemma highlight_all_shape (i : nat) (t : str) (w : World) :
  same_shape w (highlight_all i t w).
Proof.
  unfold highlight_all. destruct (tabs w !! i) as [[e l]|]; [| apply same_shape_refl].
  destruct (finditer t (toPlainText e)).
  - exact (on_widget_shape _ i w).
  - eapply same_shape_trans; [| apply on_widget_shape]. apply on_widget_shape.
Qed.

Lemma find_text_shape (find_str : str) (ok : bool) (w : World) :
  same_shape w (find_text find_str ok w).
Proof.
  unfold find_text. destruct (current_editor w); [| apply same_shape_refl].
  destruct (ok && bool_decide (find_str ≠ [])); [| apply same_shape_refl].
  eapply same_shape_trans; [| apply highlight_all_shape].
  apply (on_widget_shape _ _ (set_search w find_str 0)).
Qed.

Lemma find_next_shape (w : World) : same_shape w (find_next w).
Proof.
  unfold find_next. destruct (current_editor w) as [e|]; [| apply same_shape_refl].
  destruct (bool_decide (search_term w ≠ [])); [| apply same_shape_refl].
  destruct (document_find _ _ _) as [p|]; [apply on_widget_shape |].
  destruct (document_find _ _ _) as [p|]; [apply on_widget_shape | apply same_shape_refl].
Qed.

Lemma replace_text_shape (find_str : str) (ok1 : bool) (replace_str : str) (ok2 : bool)
    (w : World) :
  same_shape w (replace_text find_str ok1 replace_str ok2 w).
Proof.
  unfold replace_text. destruct (current_editor w) as [e|]; [| apply same_shape_refl].
  destruct (ok1 && bool_decide (find_str ≠ [])); [| apply same_shape_refl].
  destruct ok2; [| apply same_shape_refl].
  eapply same_shape_trans; [apply on_widget_shape | apply set_tab_modified_shape].
Qed.

Lemma text_changed_shape (text : str) (w : World) : same_shape w (text_changed text w).
Proof.
  unfold text_changed.
  eapply same_shape_trans; [apply on_widget_shape | apply set_tab_modified_shape].
Qed.

Lemma save_file_shape (prompt : str) (w : World) :
  same_shape w (after id (save_file prompt w)).
Proof.
  unfold save_file. destruct (tabs w !! currentIndex w) as [[e l]|];
    [| apply same_shape_refl].
  destruct (match file_path e with Some (c :: p) => c :: p | _ => prompt end);
    [apply same_shape_refl |].
  case_decide; [apply same_shape_refl |]. cbn.
  eapply same_shape_trans; [| apply on_widget_shape].
  eapply same_shape_trans; [| apply setTabText_shape].
  apply (on_widget_shape _ _ (set_disk w _)).
Qed.

Lemma auto_save_tab_shape (i : nat) (w : World) :
  same_shape w (after id (auto_save_tab i w)).
Proof.
  unfold auto_save_tab. destruct (tabs w !! i) as [[e l]|]; [| apply same_shape_refl].
  destruct (file_path e) as [path|]; [| apply same_shape_refl].
  destruct (isModified e); [| apply same_shape_refl].
  case_decide; [apply same_shape_refl |]. cbn.
  destruct (endswith l (lit "*")).
  - eapply same_shape_trans; [| apply setTabText_shape].
    apply (on_widget_shape _ _ (set_disk w _)).
  - apply (on_widget_shape _ _ (set_disk w _)).
Qed.

Lemma for_range_shape (body : nat → World → outcome World) :
  (∀ i w, same_shape w (after id (body i w))) →
  ∀ n lo w, same_shape w (after id (for_range body lo n w)).
Proof.
  intros Hbody. induction n as [|n IH]; intros lo w; [apply same_shape_refl |].
  simpl. pose proof (Hbody lo w) as H. destruct (body lo w) as [w1|w1]; [| done].
  cbn. eapply same_shape_trans; [exact H | apply IH].
Qed.

Lemma auto_save_shape (w : World) : same_shape w (after id (auto_save w)).
Proof. apply for_range_shape. exact auto_save_tab_shape. Qed.

Lemma closeEvent_shape (reply : StandardButton) (prompt : str) (w : World) :
  same_shape w (after fst (closeEvent reply prompt w)).
Proof.
  unfold closeEvent. destruct (existsb _ _); [| apply same_shape_refl].
  destruct reply; try apply same_shape_refl.
  pose proof (save_file_shape prompt w) as H.
  by destruct (save_file prompt w).
Qed.

Lemma new_tab_one_more (w : World) : one_more_tab w (new_tab w).
Proof. split; [| done]. unfold new_tab; cbn. rewrite length_app. simpl. lia. Qed.

Lemma open_file_shape (filename : str) (w : World) :
  same_shape w (after id (open_file filename w))
  ∨ one_more_tab w (after id (open_file filename w)).
Proof.
  unfold open_file. destruct filename as [|c f]; [left; apply same_shape_refl |].
  destruct (disk w !! (c :: f)); [| left; apply same_shape_refl].
  right. split; [| done]. cbn. rewrite length_app. simpl. lia.
Qed.

Lemma step_shape (undo redo : QTextEdit → QTextEdit) (w : World) (a : action) :
  same_shape w (step undo redo w a) ∨ one_more_tab w (step undo redo w a).
Proof.
  destruct a; simpl.
  - right. apply new_tab_one_more.
  - apply open_file_shape.
  - left. apply save_file_shape.
  - left. apply find_text_shape.
  - left. apply find_next_shape.
  - left. apply replace_text_shape.
  - left. unfold undo_text. destruct (current_editor w); [| apply same_shape_refl].
    eapply same_shape_trans; [apply on_widget_shape | apply set_tab_modified_shape].
  - left. unfold redo_text. destruct (current_editor w); [| apply same_shape_refl].
    eapply same_shape_trans; [apply on_widget_shape | apply set_tab_modified_shape].
  - left. apply text_changed_shape.
  - left. apply auto_save_shape.
  - left. apply closeEvent_shape.
Qed.

(** X1: whatever the user, the dialogs and the autosave timer do after the
    window was created, handlers that raise included, no tab ever goes away
    and the current index always names a tab: there is a current editor in
    every state the window can reach. *)
Theorem always_a_current_editor (undo redo : QTextEdit → QTextEdit)
    (d : gmap str str) (ro : gset str) (l : list action) :
  let w := run undo redo (init d ro) l in
  1 ≤ length (tabs w)
  ∧ currentIndex w < length (tabs w)
  ∧ is_Some (current_editor w)
  ∧ ∀ a, length (tabs w) ≤ length (tabs (step undo redo w a)).
Proof.
  assert (∀ w a, currentIndex w < length (tabs w) →
            currentIndex (step undo redo w a) < length (tabs (step undo redo w a))
            ∧ length (tabs w) ≤ length (tabs (step undo redo w a))) as Hstep.
  { intros w a Hw. destruct (step_shape undo redo w a) as [[H1 H2]|[H1 H2]]; lia. }
  assert (∀ l w, currentIndex w < length (tabs w) →
            currentIndex (run undo redo w l) < length (tabs (run undo redo w l)))
    as Hrun.
  { clear l. induction l as [|a l IH]; intros w Hw; [done |].
    apply (IH (step undo redo w a)). by apply Hstep. }
  intros w. assert (currentIndex w < length (tabs w)) as Hw.
  { apply Hrun. cbn. lia. }
  split; [lia |]. split; [done |]. split.
  - unfold current_editor. apply fmap_is_Some. by apply lookup_lt_is_Some_2.
  - intros a. by apply Hstep.
Qed.

(** ** More on searching *)

Lemma match_here_length (t : str) : ∀ s, match_here t s = true → length t ≤ length s.
Proof.
  induction t as [|a t IH]; intros s H; simpl; [lia |].
  destruct s as [|b s]; [done |]. simpl in H.
  apply andb_true_iff in H as [_ H]. apply IH in H. simpl. lia.
Qed.

Lemma finditer_from_in_order (t : str) (s : str) : t ≠ [] → ∀ pos skip,
  in_order (finditer_from t s pos skip).
Proof.
  intros Hne. assert (0 < length t) as Hn by (destruct t; [done | simpl; lia]).
  induction s as [|c s IH]; intros pos skip; simpl.
  - rewrite (match_here_nil t Hne), andb_false_r. constructor.
  - destruct skip as [|k]; [| apply IH].
    destruct (match_here t (c :: s)); [| apply IH].
    constructor; [apply IH |]. apply Forall_forall.
    intros [a b] Hin%finditer_from_sound. simpl. lia.
Qed.

(** X2: the spans of one search never overlap and come in document order,
    each has the length of the term and lies inside the text. *)
Theorem finditer_spans_disjoint (t s : str) :
  t ≠ [] →
  in_order (finditer t s)
  ∧ ∀ a b, (a, b) ∈ finditer t s → b = a + length t ∧ a < b ≤ length s.
Proof.
  intros Hne. split; [by apply finditer_from_in_order |].
  intros a b (-> & _ & Hm)%finditer_from_sound. rewrite Nat.sub_0_r in Hm.
  apply match_here_length in Hm. rewrite length_drop in Hm.
  assert (0 < length t) by (destruct t; [done | simpl; lia]).
  split; [done | lia].
Qed.

Lemma finditer_spans_disjoint_witness :
  in_order (finditer (lit "aa") (lit "aaaaa"))
  ∧ ∀ a b, (a, b) ∈ finditer (lit "aa") (lit "aaaaa") → b = a + 2 ∧ a < b ≤ 5.
Proof. apply (finditer_spans_disjoint (lit "aa") (lit "aaaaa")). discriminate. Defined.

Lemma match_here_fold (t t' s s' : str) :
  lower <$> t = lower <$> t' → lower <$> s = lower <$> s' →
  match_here t s = match_here t' s'.
Proof.
  intros Ht Hs. assert (length t = length t') as Hlen.
  { by rewrite <- (length_fmap lower t), Ht, length_fmap. }
  apply eq_true_iff_eq. rewrite !match_here_take, <- Hlen, <- Ht.
  by rewrite !fmap_take, Hs.
Qed.

Lemma finditer_from_fold (t t' : str) :
  lower <$> t = lower <$> t' →
  ∀ s s' pos skip, lower <$> s = lower <$> s' →
  finditer_from t s pos skip = finditer_from t' s' pos skip.
Proof.
  intros Ht. assert (length t = length t') as Hlen.
  { by rewrite <- (length_fmap lower t), Ht, length_fmap. }
  induction s as [|c s IH]; intros [|c' s'] pos skip Hs; try done.
  - simpl. by rewrite (match_here_fold t t' [] []), Hlen.
  - pose proof Hs as Hs0. injection Hs as Hc Hs'.
    change (lower <$> s = lower <$> s') in Hs'. simpl.
    destruct skip as [|k]; [| by apply IH].
    rewrite (match_here_fold t t' (c :: s) (c' :: s')), Hlen by done.
    destruct (match_here t' (c' :: s')); [f_equal |]; by apply IH.
Qed.

(** X3: the search does not see letter case, neither in the term nor in the
    text: terms and texts that differ in case only give the same spans. *)
Theorem finditer_ignores_case (t t' s s' : str) :
  lower <$> t = lower <$> t' → lower <$> s = lower <$> s' →
  finditer t s = finditer t' s'.
Proof. intros Ht Hs. by apply finditer_from_fold. Qed.

Lemma finditer_ignores_case_witness :
  finditer (lit "World") (lit "hello world") = finditer (lit "wORLD") (lit "Hello WORLD").
Proof.
  apply (finditer_ignores_case (lit "World") (lit "wORLD")); reflexivity.
Defined.













(** ** More on saving *)

Lemma world_eq (w w' : World) :
  tabs w' = tabs w → currentIndex w' = currentIndex w →
  search_term w' = search_term w → last_cursor_pos w' = last_cursor_pos w →
  disk w' = disk w → locked w' = locked w → messages w' = messages w →
  w' = w.
Proof. destruct w, w'. cbn. by intros -> -> -> -> -> -> ->. Qed.

Lemma saved_again (path : str) (w : World) (e : QTextEdit) (l : str) :
  tabs w !! currentIndex w = Some (e, l) →
  file_path e = Some path → isModified e = false → l = basename path →
  disk w !! path = Some (toPlainText e) →
  saved path e w = w.
Proof.
  intros H Hp Hm Hl Hd. apply world_eq; try done.
  - apply list_eq. intros j. destruct (decide (j = currentIndex w)) as [->|Hj].
    + rewrite (saved_current path w e l H), H. destruct e. cbn in *. by subst.
    + by apply saved_others.
  - rewrite disk_saved. by apply insert_id.
Qed.

(** X7: saving twice is saving once.  After a successful save the editor has
    a path, so a second save asks nothing (the answer of the dialog is not
    looked at) and leaves the state, the disk included, as the first save
    left it. *)
Theorem save_file_twice (w : World) (e : QTextEdit) (l prompt prompt' : str) :
  tabs w !! currentIndex w = Some (e, l) →
  save_path e prompt ≠ [] →
  save_path e prompt ∉ locked w →
  ∃ w1, save_file prompt w = Returned w1 ∧ save_file prompt' w1 = Returned w1.
Proof.
  intros H Hne Hl. rewrite (save_file_cases w e l prompt H).
  destruct (save_path e prompt) as [|c p] eqn:E; [done |].
  rewrite decide_False by done. eexists. split; [done |].
  pose proof (saved_current (c :: p) w e l H) as H1.
  change (currentIndex w) with (currentIndex (saved (c :: p) e w)) in H1.
  rewrite (save_file_cases _ _ _ prompt' H1). unfold save_path at 1.
  cbn [file_path]. rewrite decide_False by done. f_equal.
  apply (saved_again _ _ _ _ H1); try done.
  rewrite disk_saved. apply lookup_insert_eq.
Qed.

Lemma save_file_twice_witness :
  let w := text_changed (lit "hello") (init ∅ ∅) in
  ∃ w1, save_file (lit "/tmp/x.txt") w = Returned w1
      ∧ save_file (lit "/tmp/other.txt") w1 = Returned w1.
Proof.
  intros w.
  apply (save_file_twice w (mkEdit (lit "hello") None true (0, 0) [] false)
           (lit "Новый документ*") (lit "/tmp/x.txt") (lit "/tmp/other.txt"));
    [reflexivity | discriminate | exact (not_elem_of_empty (C:=gset str) _)].
Defined.

(** X8: what was saved can be opened again.  After a successful save of the
    current editor, opening the file it was saved to adds a tab holding
    exactly the saved text, unmodified, under the same tab text. *)
Theorem save_then_open (w : World) (e : QTextEdit) (l prompt : str) :
  tabs w !! currentIndex w = Some (e, l) →
  save_path e prompt ≠ [] →
  save_path e prompt ∉ locked w →
  ∃ w1 w2 e2,
    save_file prompt w = Returned w1
    ∧ open_file (save_path e prompt) w1 = Returned w2
    ∧ tabs w2 = tabs w1 ++ [(e2, basename (save_path e prompt))]
    ∧ toPlainText e2 = toPlainText e
    ∧ isModified e2 = false
    ∧ file_path e2 = Some (save_path e prompt)
    ∧ tabs w1 !! currentIndex w
      = Some (mkEdit (toPlainText e) (Some (save_path e prompt)) false
                     (textCursor e) (search_spans e) (highlighter e),
              basename (save_path e prompt)).
Proof.
  intros H Hne Hl. rewrite (save_file_cases w e l prompt H).
  destruct (save_path e prompt) as [|c p] eqn:E; [done |].
  rewrite decide_False by done. eexists _, _, _. split; [done |].
  unfold open_file. rewrite disk_saved, lookup_insert_eq.
  split; [reflexivity |].
  do 4 (split; [reflexivity |]). apply (saved_current _ w e l H).
Qed.

Lemma save_then_open_witness :
  let w := text_changed (lit "hello") (init ∅ ∅) in
  ∃ w1 w2 e2,
    save_file (lit "/tmp/x.txt") w = Returned w1
    ∧ open_file (lit "/tmp/x.txt") w1 = Returned w2
    ∧ tabs w2 !! 1 = Some (e2, lit "x.txt")
    ∧ toPlainText e2 = lit "hello".
Proof.
  intros w.
  destruct (save_then_open w (mkEdit (lit "hello") None true (0, 0) [] false)
              (lit "Новый документ*") (lit "/tmp/x.txt") eq_refl)
    as (w1 & w2 & e2 & H1 & H2 & Ht & Hx & _ & _ & Hc);
    [discriminate | exact (not_elem_of_empty (C:=gset str) _) |].
  exists w1, w2, e2. split; [exact H1 |]. split; [exact H2 |].
  split; [| exact Hx].
  rewrite Ht. apply (f_equal length) in Ht.
  assert (length (tabs w1) = 1) as Hlen.
  { apply (f_equal (λ r, length (tabs (after id r)))) in H1. cbn in H1.
    rewrite <- H1. reflexivity. }
  rewrite lookup_app_r by lia. rewrite Hlen. reflexivity.
Defined.

(** ** More on the autosave sweep and on leaving *)

Lemma dirty_autosaved_tab (t : QTextEdit * str) : dirty (autosaved_tab t) = None.
Proof.
  unfold autosaved_tab. destruct (dirty t) as [path|] eqn:E; [| done].
  unfold dirty. cbn. by destruct (file_path t.1).
Qed.

Lemma auto_save_tab_clean (i : nat) (w : World) :
  (∀ t, tabs w !! i = Some t → dirty t = None) →
  auto_save_tab i w = Returned w.
Proof.
  intros H. unfold auto_save_tab. destruct (tabs w !! i) as [[e l]|]; [| done].
  specialize (H _ eq_refl). unfold dirty in H. cbn in H.
  destruct (file_path e); [| done]. by destruct (isModified e).
Qed.

Lemma for_range_clean (w : World) :
  (∀ t, t ∈ tabs w → dirty t = None) →
  ∀ n lo, for_range auto_save_tab lo n w = Returned w.
Proof.
  intros H. induction n as [|n IH]; intros lo; [done |]. simpl.
  rewrite auto_save_tab_clean; [apply IH |].
  intros t Ht. apply H. by eapply list_elem_of_lookup_2.
Qed.

Lemma auto_save_returns (w : World) :
  (∀ t path, t ∈ tabs w → dirty t = Some path → path ∉ locked w) →
  ∃ w1, auto_save w = Returned w1
    ∧ tabs w1 = autosaved_tab <$> tabs w
    ∧ disk w1 = foldl autosaved_disk (disk w) (tabs w)
    ∧ same_window w w1.
Proof.
  intros Hlock.
  destruct (for_range_auto_save (length (tabs w)) 0 w) as (w' & Hrun & Hlook & Hd & Hs).
  { done. }
  { intros j t path _ Hj. apply Hlock. by eapply list_elem_of_lookup_2. }
  exists w'. split; [done |]. split; [| split; [| done]].
  - apply list_eq. intros j. rewrite Hlook, list_lookup_fmap.
    case_decide as Hj; [done |]. rewrite lookup_ge_None_2 by lia. done.
  - by rewrite drop_0, take_ge in Hd.
Qed.

(** X9: a sweep leaves nothing to autosave.  When the files it opens can be
    written, the sweep returns a state in which no tab with a path is
    modified, so that a second sweep right after it changes nothing; the text
    and the path of every editor are as before the sweep. *)
Theorem auto_save_twice (w : World) :
  (∀ t path, t ∈ tabs w → dirty t = Some path → path ∉ locked w) →
  ∃ w1, auto_save w = Returned w1
    ∧ (∀ t, t ∈ tabs w1 → dirty t = None)
    ∧ auto_save w1 = Returned w1
    ∧ (∀ i e l, tabs w !! i = Some (e, l) →
         ∃ e' l', tabs w1 !! i = Some (e', l')
           ∧ toPlainText e' = toPlainText e ∧ file_path e' = file_path e).
Proof.
  intros Hlock. destruct (auto_save_returns w Hlock) as (w1 & Hrun & Ht & _).
  assert (∀ t, t ∈ tabs w1 → dirty t = None) as Hclean.
  { intros t. rewrite Ht. intros (t0 & -> & _)%list_elem_of_fmap.
    apply dirty_autosaved_tab. }
  exists w1. split; [done |]. split; [done |]. split.
  - by apply for_range_clean.
  - intros i e l Hi. rewrite Ht, list_lookup_fmap, Hi. cbn.
    unfold autosaved_tab. destruct (dirty (e, l)); eexists _, _; by split.
Qed.

Lemma auto_save_twice_witness :
  let a := mkEdit (lit "one") (Some (lit "/a.txt")) true (0, 0) [] false in
  let b := mkEdit (lit "two") None true (0, 0) [] false in
  let w := mkWorld [(a, lit "a.txt*"); (b, lit "b*")] 0 [] 0 ∅ ∅ [] in
  ∃ w1, auto_save w = Returned w1 ∧ auto_save w1 = Returned w1.
Proof.
  intros a b w. destruct (auto_save_twice w) as (w1 & H1 & _ & H2 & _).
  { intros t path _ _. exact (not_elem_of_empty (C:=gset str) _). }
  exists w1. split; [exact H1 | exact H2].
Defined.

Lemma unsaved_none (w : World) :
  (∀ t, t ∈ tabs w → isModified t.1 = false) →
  existsb (λ t, isModified t.1) (tabs w) = false.
Proof.
  intros H. apply not_true_is_false. intros (t & Hin & Hm)%existsb_exists.
  apply list_elem_of_In in Hin. apply H in Hin. congruence.
Qed.

(** X10: when every tab has a path and the files can be written, nothing is
    unsaved after a sweep: leaving the editor then asks no question (the
    answer to it is not looked at), writes nothing and is accepted. *)
Theorem exit_after_auto_save (w : World) (reply : StandardButton) (prompt : str) :
  (∀ t, t ∈ tabs w → is_Some (file_path t.1)) →
  (∀ t path, t ∈ tabs w → dirty t = Some path → path ∉ locked w) →
  ∃ w1, auto_save w = Returned w1
    ∧ (∀ t, t ∈ tabs w1 → isModified t.1 = false)
    ∧ closeEvent reply prompt w1 = Returned (w1, true).
Proof.
  intros Hpath Hlock. destruct (auto_save_returns w Hlock) as (w1 & Hrun & Ht & _).
  assert (∀ t, t ∈ tabs w1 → isModified t.1 = false) as Hclean.
  { intros t. rewrite Ht. intros (t0 & -> & Hin)%list_elem_of_fmap.
    destruct (Hpath t0 Hin) as [path Hp].
    unfold autosaved_tab, dirty. rewrite Hp.
    by destruct (isModified t0.1) eqn:E. }
  exists w1. split; [done |]. split; [done |].
  unfold closeEvent. by rewrite unsaved_none.
Qed.

Lemma exit_after_auto_save_witness :
  let a := mkEdit (lit "one") (Some (lit "/a.txt")) true (0, 0) [] false in
  let w := mkWorld [(a, lit "a.txt*")] 0 [] 0 ∅ ∅ [] in
  ∃ w1, auto_save w = Returned w1 ∧ closeEvent Cancel [] w1 = Returned (w1, true).
Proof.
  intros a w. destruct (exit_after_auto_save w Cancel []) as (w1 & H1 & _ & H2).
  { intros t Hin. apply list_elem_of_singleton in Hin. subst t. by eexists. }
  { intros t path _ _. exact (not_elem_of_empty (C:=gset str) _). }
  exists w1. split; [exact H1 | exact H2].
Defined.

(** X11: "Save" at the exit question does not make sure anything is saved.
    When the active editor is modified and has no path, and the save dialog
    that opens is dismissed, the close event is accepted all the same:
    nothing is written and the state is as before. *)
Theorem exit_save_dismissed_dialog (w : World) (e : QTextEdit) (l : str) :
  tabs w !! currentIndex w = Some (e, l) →
  file_path e = None →
  isModified e = true →
  closeEvent Save [] w = Returned (w, true).
Proof.
  intros H Hp Hm. unfold closeEvent. rewrite (unsaved_exists w _ e l H Hm).
  rewrite (save_file_cases w e l [] H). unfold save_path. by rewrite Hp.
Qed.

Lemma exit_save_dismissed_dialog_witness :
  let w := text_changed (lit "hello") (init ∅ ∅) in
  closeEvent Save [] w = Returned (w, true).
Proof.
  intros w.
  apply (exit_save_dismissed_dialog w (mkEdit (lit "hello") None true (0, 0) [] false)
           (lit "Новый документ*")); reflexivity.
Defined.

(** ** Opening, typing and the sweep together *)

Lemma marked_ends (l : str) : endswith (marked l) (lit "*") = true.
Proof.
  unfold marked. destruct (endswith l (lit "*")) eqn:E; [done |].
  apply (endswith_snoc l "*"%char).
Qed.

Lemma strip_last_marked (l : str) :
  strip_last (marked l) = if endswith l (lit "*") then strip_last l else l.
Proof.
  unfold marked. destruct (endswith l (lit "*")); [done |].
  apply (strip_last_snoc l "*"%char).
Qed.

Lemma set_tab_modified_cases (w : World) :
  set_tab_modified w = w
  ∨ ∃ l', set_tab_modified w = setTabText (currentIndex w) l' w.
Proof.
  unfold set_tab_modified. destruct (tabs w !! currentIndex w) as [[e l]|]; [| by left].
  destruct (isModified e && negb (endswith l (lit "*"))); [right; by eexists | by left].
Qed.

Lemma text_changed_world (text : str) (w : World) (e : QTextEdit) (l : str) :
  tabs w !! currentIndex w = Some (e, l) →
  text_changed text w
  = set_tabs w (<[currentIndex w := (typed text e, marked l)]> (tabs w)).
Proof.
  intros H. destruct (text_changed_current text w e l H) as [Hi Ht].
  assert (∀ j, j ≠ currentIndex w → tabs (text_changed text w) !! j = tabs w !! j)
    as Hothers.
  { intros j Hj. unfold text_changed.
    destruct (set_tab_modified_cases (on_widget (typed text) (currentIndex w) w))
      as [->|[l' ->]].
    - by rewrite lookup_on_widget, decide_False.
    - change (currentIndex (on_widget ?f ?i w)) with (currentIndex w).
      by rewrite lookup_setTabText, decide_False, lookup_on_widget, decide_False. }
  assert (∀ A (f : World → A),
            (∀ i g, f (on_widget g i w) = f w) →
            (∀ i l' w0, f (setTabText i l' w0) = f w0) →
            f (text_changed text w) = f w) as Hfield.
  { intros A f Hw Hl. unfold text_changed.
    destruct (set_tab_modified_cases (on_widget (typed text) (currentIndex w) w))
      as [->|[l' ->]]; by rewrite ?Hl, Hw. }
  apply world_eq; try done; try (by apply Hfield).
  cbn. apply list_eq. intros j. destruct (decide (j = currentIndex w)) as [->|Hj].
  - rewrite list_lookup_insert_eq by (by eapply lookup_lt_Some). done.
  - rewrite list_lookup_insert_ne by done. by apply Hothers.
Qed.

(** X12: an opened file that is edited reaches the disk at the next sweep.
    Open a readable and writable file, type a new text, let the sweep run
    (the other files it writes being writable): the file then holds the new
    text, the editor is unmodified and its tab text is the base name again.
    The sweep cannot tell the marker from a star that ends the file name:
    for such a file the tab text comes out one character short. *)
Theorem open_type_auto_save (w : World) (filename text0 text1 : str) :
  filename ≠ [] →
  disk w !! filename = Some text0 →
  filename ∉ locked w →
  (∀ t path, t ∈ tabs w → dirty t = Some path → path ∉ locked w) →
  ∃ w1 w3 e3,
    open_file filename w = Returned w1
    ∧ auto_save (text_changed text1 w1) = Returned w3
    ∧ tabs w3 !! length (tabs w)
      = Some (e3, if endswith (basename filename) (lit "*")
                  then strip_last (basename filename) else basename filename)
    ∧ toPlainText e3 = text1
    ∧ isModified e3 = false
    ∧ disk w3 !! filename = Some text1.
Proof.
  intros Hne Hd Hl Hlock. unfold open_file. destruct filename as [|c f]; [done |].
  rewrite Hd. set (e0 := mkEdit text0 (Some (c :: f)) false (0, 0) [] _).
  set (w1 := set_currentIndex _ _).
  assert (tabs w1 !! currentIndex w1 = Some (e0, basename (c :: f))) as H1.
  { subst w1. cbn. by rewrite lookup_app_r, Nat.sub_diag. }
  pose proof (text_changed_world text1 w1 e0 _ H1) as H2.
  assert (tabs (text_changed text1 w1)
          = tabs w ++ [(typed text1 e0, marked (basename (c :: f)))]) as Ht2.
  { rewrite H2. subst w1. cbn.
    rewrite insert_app_r_alt, Nat.sub_diag by lia. done. }
  destruct (auto_save_returns (text_changed text1 w1)) as (w3 & Hrun & Ht3 & Hd3 & _).
  { intros t path Hin Hdirty. rewrite H2. cbn.
    rewrite Ht2 in Hin. apply elem_of_app in Hin as [Hin|Hin].
    - by apply (Hlock t).
    - apply list_elem_of_singleton in Hin. subst t. unfold dirty in Hdirty.
      cbn in Hdirty. by injection Hdirty as <-. }
  eexists w1, w3, _. split; [done |]. split; [done |].
  rewrite Ht3, Hd3, Ht2. split; [| split; [| split]].
  - rewrite list_lookup_fmap, lookup_app_r, Nat.sub_diag by lia. cbn.
    unfold autosaved_tab, dirty. cbn. rewrite marked_ends, strip_last_marked.
    reflexivity.
  - done.
  - done.
  - rewrite (foldl_autosaved_disk_last _ [] (typed text1 e0, _) (c :: f)); try done.
    by intros t' ?%elem_of_nil.
Qed.

Lemma open_type_auto_save_witness :
  let d : gmap str str := {[ lit "/home/u/notes.py" := lit "# hi" ]} in
  ∃ w1 w3 e3,
    open_file (lit "/home/u/notes.py") (init d ∅) = Returned w1
    ∧ auto_save (text_changed (lit "# bye") w1) = Returned w3
    ∧ tabs w3 !! 1 = Some (e3, lit "notes.py")
    ∧ disk w3 !! lit "/home/u/notes.py" = Some (lit "# bye").
Proof.
  intros d.
  destruct (open_type_auto_save (init d ∅) (lit "/home/u/notes.py") (lit "# hi")
              (lit "# bye")) as (w1 & w3 & e3 & H1 & H3 & Ht & _ & _ & Hd).
  { discriminate. }
  { reflexivity. }
  { exact (not_elem_of_empty (C:=gset str) _). }
  { intros t path _ _. exact (not_elem_of_empty (C:=gset str) _). }
  exists w1, w3, e3. split; [exact H1 |]. split; [exact H3 |].
  split; [exact Ht | exact Hd].
Defined.

(** ** Base names *)

Lemma basename_aux_join (name : str) : slash ∉ name → ∀ dir acc,
  basename_aux (dir ++ slash :: name) acc = name.
Proof.
  intros Hno. induction dir as [|c dir IH]; intros acc; simpl.
  - apply (proj1 (basename_aux_spec name name) Hno).
  - destruct (Ascii.eqb c slash); apply IH.
Qed.

(** X13: the tab text of a file is its name inside its directory: the base
    name of a directory path, a slash and a name without slash is the name,
    and a path without slash is its own base name. *)
Theorem basename_of_join (dir name : str) :
  slash ∉ name →
  basename (dir ++ slash :: name) = name ∧ basename name = name.
Proof.
  intros Hno. split.
  - by apply basename_aux_join.
  - apply (proj1 (basename_aux_spec name name) Hno).
Qed.

Lemma basename_of_join_witness :
  basename (lit "/home/u" ++ slash :: lit "notes.py") = lit "notes.py"
  ∧ basename (lit "notes.py") = lit "notes.py".
Proof.
  apply (basename_of_join (lit "/home/u") (lit "notes.py")).
  intros Hin. vm_compute in Hin.
  repeat (apply elem_of_cons in Hin as [Hin|Hin]; [discriminate Hin |]).
  by apply elem_of_nil in Hin.
Defined.

(** ** Replacing one character *)

Lemma replace_from_char (a : ascii) (new s : str) :
  replace_from [a] new s 0 = s ≫= λ c, if Ascii.eqb c a then new else [c].
Proof.
  induction s as [|c s IH]; [done |]. cbn [replace_from startswith length].
  rewrite andb_true_r, Ascii.eqb_sym, bind_cons, <- IH.
  by destruct (Ascii.eqb c a).
Qed.

(** X14: replacing a single character by a text that does not hold it leaves
    none of it in the editor: every such character is replaced, the other
    characters stay in order. *)
Theorem replace_text_removes_char (w : World) (e : QTextEdit) (l : str) (a : ascii)
    (new : str) :
  tabs w !! currentIndex w = Some (e, l) →
  a ∉ new →
  ∃ e' l', tabs (replace_text [a] true new true w) !! currentIndex w = Some (e', l')
    ∧ toPlainText e' = (toPlainText e ≫= λ c, if Ascii.eqb c a then new else [c])
    ∧ a ∉ toPlainText e'.
Proof.
  intros H Hnew. rewrite (replace_text_confirmed w e l [a] new H) by done.
  eexists _, _. split.
  { rewrite lookup_on_widget, decide_True, H by done. reflexivity. }
  cbn [toPlainText setPlainText fst]. unfold py_replace.
  rewrite replace_from_char. split; [done |].
  intros (c & Hin & Hc)%list_elem_of_bind.
  destruct (Ascii.eqb c a) eqn:E; [done |].
  apply list_elem_of_singleton in Hin. subst c. by rewrite Ascii.eqb_refl in E.
Qed.

Lemma replace_text_removes_char_witness :
  let e := mkEdit (lit "a,b,,c") None false (0, 0) [] false in
  let w := mkWorld [(e, lit "t")] 0 [] 0 ∅ ∅ [] in
  ∃ e' l', tabs (replace_text (lit ",") true (lit "; ") true w) !! 0 = Some (e', l')
    ∧ toPlainText e' = lit "a; b; ; c".
Proof.
  intros e w.
  destruct (replace_text_removes_char w e (lit "t") ","%char (lit "; ") eq_refl)
    as (e' & l' & He' & Ht & _).
  { intros Hin. vm_compute in Hin.
    repeat (apply elem_of_cons in Hin as [Hin|Hin]; [discriminate Hin |]).
    by apply elem_of_nil in Hin. }
  exists e', l'. split; [exact He' | exact Ht].
Defined.

(** ** The syntax highlighter *)

Example highlightBlock_ex :
  highlightBlock highlighting_rules (lit "if x: # if")
  = [Some keyword_format; Some keyword_format; None; None; None; None;
     Some comment_format; Some comment_format; Some comment_format;
     Some comment_format].
Proof. vm_compute. reflexivity. Qed.

Example highlightBlock_ex2 :
  highlightBlock highlighting_rules (lit "define 'a' or")
  = [None; None; None; None; None; None; None;
     Some string_format; Some string_format; Some string_format; None;
     Some keyword_format; Some keyword_format].
Proof. vm_compute. reflexivity. Qed.

Lemma length_setFormat start count fmt formats :
  length (setFormat start count fmt formats) = length formats.
Proof. apply length_imap. Qed.

Lemma lookup_setFormat start count fmt formats j :
  setFormat start count fmt formats !! j =
  (λ old, if bool_decide (start ≤ j < start + count) then Some fmt else old)
    <$> formats !! j.
Proof. apply list_lookup_imap. Qed.

Lemma foldl_setFormat_length (fmt : style) (ms : list (nat * nat)) : ∀ fs,
  length (foldl (λ fs m, setFormat m.1 (m.2 - m.1) fmt fs) fs ms) = length fs.
Proof.
  induction ms as [|m ms IH]; intros fs; [done |]. simpl.
  by rewrite IH, length_setFormat.
Qed.

Lemma length_highlightBlock rules text :
  length (highlightBlock rules text) = length text.
Proof.
  unfold highlightBlock. rewrite <- (length_replicate (length text) (None : option style)) at 2.
  generalize (replicate (length text) (None : option style)).
  induction rules as [|r rules IH]; intros fs; [done |]. simpl.
  rewrite IH. apply foldl_setFormat_length.
Qed.

(** A format found after the matches of one rule were painted comes from one
    of the matches or was there before. *)
Lemma foldl_setFormat_lookup (fmt : style) (ms : list (nat * nat)) (j : nat)
    (x : option style) : ∀ fs,
  foldl (λ fs m, setFormat m.1 (m.2 - m.1) fmt fs) fs ms !! j = Some x →
  (x = Some fmt ∧ ∃ m, m ∈ ms ∧ m.1 ≤ j < m.2) ∨ fs !! j = Some x.
Proof.
  induction ms as [|m ms IH]; intros fs H; [by right |]. simpl in H.
  apply IH in H as [(-> & m' & Hin & Hr)|H].
  - left. split; [done |]. exists m'. split; [by right | done].
  - rewrite lookup_setFormat in H. destruct (fs !! j) as [old|]; [| done].
    cbn in H. case_bool_decide as Hr.
    + left. injection H as <-. split; [done |]. exists m. split; [by left | lia].
    + by right.
Qed.

(** Inside a match of the rule, the format is the one of the rule. *)
Lemma foldl_setFormat_covered (fmt : style) (ms : list (nat * nat)) (j : nat) : ∀ fs,
  j < length fs →
  (∃ m, m ∈ ms ∧ m.1 ≤ j < m.2) →
  foldl (λ fs m, setFormat m.1 (m.2 - m.1) fmt fs) fs ms !! j = Some (Some fmt).
Proof.
  induction ms as [|m ms IH]; intros fs Hj [m' [Hin Hr]]; [by apply elem_of_nil in Hin |].
  simpl. apply elem_of_cons in Hin as [->|Hin].
  - destruct (lookup_lt_is_Some_2 (foldl (λ fs m, setFormat m.1 (m.2 - m.1) fmt fs)
                (setFormat m.1 (m.2 - m.1) fmt fs) ms) j) as [x Hx].
    { by rewrite foldl_setFormat_length, length_setFormat. }
    rewrite Hx. apply foldl_setFormat_lookup in Hx as [[-> _]|Hx]; [done |].
    rewrite lookup_setFormat in Hx.
    destruct (lookup_lt_is_Some_2 fs j Hj) as [old Hold]. rewrite Hold in Hx.
    cbn in Hx. rewrite bool_decide_eq_true_2 in Hx by lia. by injection Hx as <-.
  - apply IH; [by rewrite length_setFormat |]. by exists m'.
Qed.

Lemma highlightBlock_lookup (rules : list (list item * style)) (text : str) (j : nat)
    (fmt : style) : ∀ fs,
  foldl (apply_rule text) fs rules !! j = Some (Some fmt) →
  fs !! j = Some (Some fmt)
  ∨ ∃ rule m, rule ∈ rules ∧ rule.2 = fmt ∧ m ∈ re_finditer rule.1 text
              ∧ m.1 ≤ j < m.2.
Proof.
  induction rules as [|r rules IH]; intros fs H; [by left |]. simpl in H.
  apply IH in H as [H|(rule & m & Hin & Hf & Hm & Hr)].
  - unfold apply_rule in H. apply foldl_setFormat_lookup in H as [([= ->] & m & Hm & Hr)|H].
    + right. exists r, m. split; [by left | done].
    + by left.
  - right. exists rule, m. split; [by right | done].
Qed.

(** A span of [re_finditer] is a match of the pattern where it starts. *)
Lemma re_finditer_from_sound (items : list item) (s : str) :
  ∀ prev pos skip a b,
  (a, b) ∈ re_finditer_from items prev s pos skip →
  pos + skip ≤ a ≤ b
  ∧ ∃ pv, re_match items pv (drop (a - pos) s) = Some (b - a)
          ∧ (a = pos → pv = prev)
          ∧ (pos < a → pv = s !! (a - pos - 1)).
Proof.
  induction s as [|c s IH]; intros prev pos skip a b; simpl.
  - destruct skip as [|k]; [| by intros ?%elem_of_nil].
    destruct (re_match items prev []) as [n|] eqn:E; [| by intros ?%elem_of_nil].
    intros Hin%list_elem_of_singleton. injection Hin as -> ->.
    split; [lia |]. exists prev. rewrite Nat.sub_diag. simpl.
    replace (pos + n - pos) with n by lia. split; [done |]. split; [done | lia].
  - assert (∀ k, (a, b) ∈ re_finditer_from items (Some c) s (S pos) k →
              pos + S k ≤ a ≤ b
              ∧ ∃ pv, re_match items pv (drop (a - pos) (c :: s)) = Some (b - a)
                      ∧ (a = pos → pv = prev)
                      ∧ (pos < a → pv = (c :: s) !! (a - pos - 1))) as Htail.
    { intros k Hin. destruct (IH _ _ _ _ _ Hin) as (Hle & pv & Hm & H0 & H1).
      split; [lia |]. exists pv. replace (a - pos) with (S (a - S pos)) by lia.
      split; [done |]. split; [lia |]. intros _.
      replace (S (a - S pos) - 1) with (a - S pos) by lia.
      destruct (decide (a = S pos)) as [->|Hn].
      - rewrite Nat.sub_diag. by apply H0.
      - rewrite H1 by lia. destruct (a - S pos) as [|m] eqn:Em; [lia |].
        simpl. by rewrite Nat.sub_0_r. }
    destruct skip as [|k].
    + destruct (re_match items prev (c :: s)) as [n|] eqn:E.
      * intros [Hin|Hin]%elem_of_cons.
        -- injection Hin as -> ->. split; [lia |]. exists prev.
           rewrite Nat.sub_diag. replace (pos + n - pos) with n by lia.
           split; [done |]. split; [done | lia].
        -- destruct (Htail _ Hin) as (Hle & Hex). split; [lia | done].
      * intros Hin. destruct (Htail _ Hin) as (Hle & Hex). split; [lia | done].
    + intros Hin. destruct (Htail _ Hin) as (Hle & Hex). split; [lia | done].
Qed.

Lemma re_finditer_sound (items : list item) (text : str) (a b : nat) :
  (a, b) ∈ re_finditer items text →
  a ≤ b ∧ re_match items (char_before text a) (drop a text) = Some (b - a).
Proof.
  intros (Hle & pv & Hm & H0 & H1)%re_finditer_from_sound.
  rewrite Nat.sub_0_r in Hm. split; [lia |].
  destruct a as [|k]; [by rewrite H0 in Hm |].
  rewrite H1 in Hm by lia. simpl. by replace (S k - 0 - 1) with k in Hm by lia.
Qed.

(** The literal part of a rule consumes exactly its characters. *)
Lemma re_match_literal (word : str) (tail : list item) : ∀ pv s n,
  re_match ((Lit <$> word) ++ tail) pv s = Some n →
  ∃ rest m, s = word ++ rest ∧ n = length word + m
            ∧ re_match tail (from_option Some pv (last word)) rest = Some m.
Proof.
  induction word as [|a word IH]; intros pv s n H.
  - exists s, n. by split.
  - cbn [fmap list_fmap app re_match] in H. destruct s as [|c s]; [done |].
    destruct (Ascii.eqb c a) eqn:E; [| done]. apply eqb_iff in E as ->.
    destruct (re_match _ (Some a) s) as [n'|] eqn:E'; [| done].
    injection H as <-. apply IH in E' as (rest & m & -> & -> & Hm).
    exists rest, m. split; [done |]. split; [done |].
    destruct word as [|b word]; [done |]. rewrite last_cons_cons.
    destruct (last (b :: word)) eqn:El; [done | by apply last_None in El].
Qed.

Lemma re_match_word_rule (word : str) (pv : option ascii) (s : str) (n : nat) :
  word ≠ [] →
  Forall (λ c, is_word c = true) word →
  re_match (word_rule word) pv s = Some n →
  n = length word
  ∧ take (length word) s = word
  ∧ is_word_at pv = false
  ∧ is_word_at (s !! length word) = false.
Proof.
  intros Hne Hw H. unfold word_rule in H. cbn [re_match] in H.
  destruct (xorb (is_word_at pv) (is_word_at (head s))) eqn:Hb; [| done].
  apply re_match_literal in H as (rest & m & -> & -> & Hm).
  cbn [re_match] in Hm.
  destruct (xorb _ (is_word_at (head rest))) eqn:Hb'; [| done]. injection Hm as <-.
  destruct word as [|c word]; [done |].
  assert (is_word c = true) as Hc by (by inversion Hw).
  cbn in Hb. rewrite Hc in Hb.
  assert (∃ d, last (c :: word) = Some d ∧ is_word d = true) as (d & Hd & Hdw).
  { destruct (last (c :: word)) as [d|] eqn:El; [| by apply last_None in El].
    exists d. split; [done |]. apply last_Some_elem_of in El.
    by apply (proj1 (Forall_forall _ _) Hw). }
  rewrite Hd in Hb'. cbn in Hb'. rewrite Hdw in Hb'.
  split; [lia |]. split; [by rewrite take_app_length |].
  split; [by destruct (is_word_at pv) |].
  rewrite lookup_app_r, Nat.sub_diag by lia. rewrite <- head_lookup.
  by destruct (is_word_at (head rest)).
Qed.

Lemma keywords_are_words (word : str) :
  word ∈ keywords → word ≠ [] ∧ Forall (λ c, is_word c = true) word.
Proof.
  intros Hin.
  assert (forallb (λ w, negb (bool_decide (w = [])) && forallb is_word w) keywords = true)
    as H by (vm_compute; reflexivity).
  rewrite forallb_forall in H. apply list_elem_of_In in Hin. apply H in Hin.
  apply andb_true_iff in Hin as [Hne Hw]. split.
  - intros ->. done.
  - apply Forall_forall. intros c Hc. rewrite forallb_forall in Hw.
    apply Hw. by apply list_elem_of_In.
Qed.

Lemma highlightBlock_from_rule (text : str) (j : nat) (fmt : style) :
  highlightBlock highlighting_rules text !! j = Some (Some fmt) →
  ∃ rule a b, rule ∈ highlighting_rules ∧ rule.2 = fmt
              ∧ (a, b) ∈ re_finditer rule.1 text ∧ a ≤ j < b.
Proof.
  intros H. apply highlightBlock_lookup in H as [H|(rule & [a b] & Hin & Hf & Hm & Hr)].
  - apply lookup_replicate in H as [H _]. done.
  - by exists rule, a, b.
Qed.

(** X15: the keyword colour is given to whole words only.  A character of a
    block that ends up in the keyword format lies in an occurrence of one of
    the keywords, written exactly as in the list, with no letter, digit or
    underscore right before or right after it. *)
Theorem keyword_format_whole_words (text : str) (j : nat) :
  highlightBlock highlighting_rules text !! j = Some (Some keyword_format) →
  ∃ word a, word ∈ keywords
    ∧ a ≤ j < a + length word
    ∧ take (length word) (drop a text) = word
    ∧ is_word_at (char_before text a) = false
    ∧ is_word_at (text !! (a + length word)) = false.
Proof.
  intros (rule & a & b & Hin & Hf & Hm & Hr)%highlightBlock_from_rule.
  unfold highlighting_rules in Hin. apply elem_of_app in Hin as [Hin|Hin].
  - apply list_elem_of_fmap in Hin as (word & -> & Hw). cbn in Hm.
    apply re_finditer_sound in Hm as [Hle Hm].
    destruct (keywords_are_words word Hw) as [Hne Hall].
    apply re_match_word_rule in Hm as (Hn & Ht & Hb & Ha); [| done | done].
    exists word, a. split; [done |]. split; [lia |]. split; [done |].
    split; [done |]. by rewrite lookup_drop in Ha.
  - repeat (apply elem_of_cons in Hin as [->|Hin]; [discriminate Hf |]).
    by apply elem_of_nil in Hin.
Qed.

Lemma keyword_format_whole_words_witness :
  ∃ word a, word ∈ keywords ∧ a ≤ 7 < a + length word
    ∧ take (length word) (drop a (lit "x = a if b")) = word.
Proof.
  destruct (keyword_format_whole_words (lit "x = a if b") 7)
    as (word & a & Hw & Hr & Ht & _); [vm_compute; reflexivity |].
  exists word, a. split; [exact Hw |]. split; [exact Hr | exact Ht].
Defined.

Lemma re_match_StarNot_cons (q : ascii) (rest : list item) (pv : option ascii)
    (a : ascii) (s : str) :
  re_match (StarNot q :: rest) pv (a :: s) =
    if negb (Ascii.eqb a q) then
      match re_match (StarNot q :: rest) (Some a) s with
      | Some n => Some (S n)
      | None => re_match rest pv (a :: s)
      end
    else re_match rest pv (a :: s).
Proof. reflexivity. Qed.

Lemma re_match_StarDot_cons (rest : list item) (pv : option ascii) (a : ascii) (s : str) :
  re_match (StarDot :: rest) pv (a :: s) =
    if negb (Ascii.eqb a newline) then
      match re_match (StarDot :: rest) (Some a) s with
      | Some n => Some (S n)
      | None => re_match rest pv (a :: s)
      end
    else re_match rest pv (a :: s).
Proof. reflexivity. Qed.

Lemma re_match_Lit_cons (c : ascii) (rest : list item) (pv : option ascii)
    (a : ascii) (s : str) :
  re_match (Lit c :: rest) pv (a :: s) =
    if Ascii.eqb a c then S <$> re_match rest (Some a) s else None.
Proof. reflexivity. Qed.

Lemma re_match_quoted_tail (q : ascii) (s : str) : ∀ pv n,
  re_match [StarNot q; Lit q] pv s = Some n →
  ∃ mid rest, s = mid ++ q :: rest ∧ (q ∉ mid) ∧ n = length mid + 1.
Proof.
  induction s as [|a s IH]; intros pv n H; [done |].
  rewrite re_match_StarNot_cons, re_match_Lit_cons in H.
  destruct (Ascii.eqb a q) eqn:E.
  - apply eqb_iff in E as ->. cbn in H.
    injection H as <-. exists [], s. split; [done |]. split; [| done].
    by intros ?%elem_of_nil.
  - cbn [negb] in H.
    destruct (re_match [StarNot q; Lit q] (Some a) s) as [n'|] eqn:E'; [| done].
    injection H as <-. apply IH in E' as (mid & rest & -> & Hno & ->).
    exists (a :: mid), rest. split; [done |]. split; [| done].
    intros [->|Hin]%elem_of_cons; [by rewrite Ascii.eqb_refl in E | done].
Qed.

Lemma re_match_quoted (q : ascii) (pv : option ascii) (s : str) (n : nat) :
  re_match [Lit q; StarNot q; Lit q] pv s = Some n →
  ∃ mid rest, s = q :: mid ++ q :: rest ∧ (q ∉ mid) ∧ n = length mid + 2.
Proof.
  intros H. destruct s as [|a s]; [done |]. rewrite re_match_Lit_cons in H.
  destruct (Ascii.eqb a q) eqn:E; [| done]. apply eqb_iff in E as ->.
  destruct (re_match [StarNot q; Lit q] (Some q) s) as [n'|] eqn:E'; [| done].
  injection H as <-. apply re_match_quoted_tail in E' as (mid & rest & -> & Hno & ->).
  exists mid, rest. split; [done |]. split; [done | lia].
Qed.

(** X16: the string colour is given to quoted pieces only.  A character of
    a block that ends up in the string format lies in a piece that starts
    and ends with the same quote character, double or single, with no such
    quote in between. *)
Theorem string_format_quoted (text : str) (j : nat) :
  highlightBlock highlighting_rules text !! j = Some (Some string_format) →
  ∃ q a mid, (q = dquote ∨ q = squote)
    ∧ a ≤ j < a + length mid + 2
    ∧ take (length mid + 2) (drop a text) = q :: mid ++ [q]
    ∧ q ∉ mid.
Proof.
  intros (rule & a & b & Hin & Hf & Hm & Hr)%highlightBlock_from_rule.
  assert (∀ q, (a, b) ∈ re_finditer [Lit q; StarNot q; Lit q] text →
            ∃ mid, a ≤ j < a + length mid + 2
                   ∧ take (length mid + 2) (drop a text) = q :: mid ++ [q]
                   ∧ q ∉ mid) as Hq.
  { intros q [Hle Hq]%re_finditer_sound.
    apply re_match_quoted in Hq as (mid & rest & Hs & Hno & Hn).
    exists mid. split; [lia |]. split; [| done]. rewrite Hs.
    replace (length mid + 2) with (length (q :: mid ++ [q]))
      by (simpl; rewrite length_app; simpl; lia).
    change (q :: mid ++ q :: rest) with ((q :: mid) ++ [q] ++ rest).
    rewrite app_assoc. change ((q :: mid) ++ [q]) with (q :: mid ++ [q]).
    by rewrite take_app_length. }
  unfold highlighting_rules in Hin. apply elem_of_app in Hin as [Hin|Hin].
  - apply list_elem_of_fmap in Hin as (word & -> & Hw). discriminate Hf.
  - apply elem_of_cons in Hin as [->|Hin].
    { destruct (Hq dquote Hm) as (mid & H1 & H2 & H3).
      exists dquote, a, mid. split; [by left | done]. }
    apply elem_of_cons in Hin as [->|Hin].
    { destruct (Hq squote Hm) as (mid & H1 & H2 & H3).
      exists squote, a, mid. split; [by right | done]. }
    apply list_elem_of_singleton in Hin as ->. discriminate Hf.
Qed.

Lemma string_format_quoted_witness :
  ∃ q a mid, a ≤ 5 < a + length mid + 2
    ∧ take (length mid + 2) (drop a (lit "x = 'a b' + y")) = q :: mid ++ [q].
Proof.
  destruct (string_format_quoted (lit "x = 'a b' + y") 5)
    as (q & a & mid & _ & Hr & Ht & _); [vm_compute; reflexivity |].
  exists q, a, mid. split; [exact Hr | exact Ht].
Defined.

Lemma re_match_dot_star (s : str) : newline ∉ s → ∀ pv,
  re_match [StarDot] pv s = Some (length s).
Proof.
  induction s as [|a s IH]; intros Hnl pv; [done |].
  rewrite re_match_StarDot_cons.
  destruct (Ascii.eqb a newline) eqn:E.
  - apply eqb_iff in E as ->. exfalso. apply Hnl. by left.
  - cbn [negb]. rewrite IH; [done |]. intros Hin. apply Hnl. by right.
Qed.

Lemma re_finditer_comment_skip (s : str) : ∀ pv pos,
  re_finditer_from comment_rule pv s pos (length s) = [].
Proof. induction s as [|c s IH]; intros pv pos; [done |]. simpl. apply IH. Qed.

Lemma re_finditer_comment (pre post : str) :
  hash ∉ pre → newline ∉ post → ∀ pv pos,
  re_finditer_from comment_rule pv (pre ++ hash :: post) pos 0
  = [(pos + length pre, pos + length (pre ++ hash :: post))].
Proof.
  intros Hpre Hnl. induction pre as [|c pre IH]; intros pv pos.
  - cbn [app re_finditer_from]. unfold comment_rule at 1.
    rewrite re_match_Lit_cons, Ascii.eqb_refl, re_match_dot_star by done.
    cbn [fmap option_fmap option_map length]. rewrite Nat.add_0_r.
    replace (S (length post) - 1) with (length post) by lia.
    by rewrite re_finditer_comment_skip.
  - cbn [app re_finditer_from]. unfold comment_rule at 1.
    rewrite re_match_Lit_cons.
    assert (Ascii.eqb c hash = false) as ->.
    { apply not_true_is_false. intros ->%eqb_iff. apply Hpre. by left. }
    rewrite IH by (intros Hin; apply Hpre; by right).
    cbn [length]. do 2 f_equal; lia.
Qed.

(** X17: a comment runs to the end of its block, whatever it runs over.  In
    a block (a text without line break), every character from a hash sign on
    ends up in the comment format, even inside a string or a keyword, since
    the comment rule is applied last. *)
Theorem comment_format_to_end (text : str) (i j : nat) :
  newline ∉ text →
  text !! i = Some hash →
  i ≤ j < length text →
  highlightBlock highlighting_rules text !! j = Some (Some comment_format).
Proof.
  intros Hnl Hi Hj.
  destruct (list_elem_of_split_l text hash) as (pre & post & Hs & Hpre).
  { by eapply list_elem_of_lookup_2. }
  assert (length pre ≤ i) as Hlen.
  { destruct (decide (i < length pre)) as [Hlt|]; [| lia]. exfalso. apply Hpre.
    rewrite Hs, lookup_app_l in Hi by done. by eapply list_elem_of_lookup_2. }
  unfold highlightBlock, highlighting_rules.
  change [?r1; ?r2; (comment_rule, comment_format)]
    with ([r1; r2] ++ [(comment_rule, comment_format)]).
  rewrite app_assoc, foldl_app. cbn [foldl]. unfold apply_rule at 1. cbn [fst snd].
  match goal with
  | |- context [foldl (apply_rule text) (replicate (length text) None) ?R] =>
      change (foldl (apply_rule text) (replicate (length text) None) R)
        with (highlightBlock R text)
  end.
  apply foldl_setFormat_covered.
  - rewrite length_highlightBlock. lia.
  - exists (length pre, length text). split; [| cbn; lia].
    subst text. unfold re_finditer.
    rewrite re_finditer_comment; [by left | done |].
    intros Hin. apply Hnl. apply elem_of_app. right. by right.
Qed.

Lemma comment_format_to_end_witness :
  highlightBlock highlighting_rules (lit "s = 'a#b' or c") !! 8
  = Some (Some comment_format).
Proof.
  apply (comment_format_to_end (lit "s = 'a#b' or c") 6 8).
  - intros Hin. vm_compute in Hin.
    repeat (apply elem_of_cons in Hin as [Hin|Hin]; [discriminate Hin |]).
    by apply elem_of_nil in Hin.
  - reflexivity.
  - vm_compute. lia.
Defined.











